(** * Reverse line reader of [txt_lines] (core_logic_classes.py)

    A shallow embedding of [txt_lines.reverse_lines_chunked]: the file is a
    list of bytes, Python [str] values are lists of Unicode code points, the
    two nested [while] loops are a deterministic transition function over the
    control points of the method, and the [try]/[except] handlers are the
    transitions that leave the scan with a printed diagnostic. *)

From Stdlib.Strings Require Import String Byte.
From Stdlib Require Import List ZArith Lia Bool.
Import ListNotations.
Open Scope Z_scope.

(** ** Python values *)

(** [bytes] objects. *)
Definition bytes := list byte.

(** [str] objects: sequences of Unicode code points. *)
Definition str := list Z.

Definition byte_val (b : byte) : Z := Z.of_N (Byte.to_N b).

Definition newline : byte := x0a.

(** The characters ['\r'] and ['\n']. *)
Definition CR : Z := 13.
Definition LF : Z := 10.

Definition len {A} (l : list A) : Z := Z.of_nat (length l).

(** *** Slices [b[i:]] and [b[:i]], negative indices counted from the end *)

Definition clamp_index (i n : Z) : Z :=
  if i <? 0 then Z.max 0 (n + i) else Z.min i n.

Definition slice_from {A} (i : Z) (l : list A) : list A :=
  skipn (Z.to_nat (clamp_index i (len l))) l.

Definition slice_to {A} (i : Z) (l : list A) : list A :=
  firstn (Z.to_nat (clamp_index i (len l))) l.

(** *** [bytes.rfind] for a one-byte needle: highest index, or [-1] *)

Fixpoint rfind (l : bytes) (needle : byte) : Z :=
  match l with
  | [] => -1
  | x :: t =>
      let r := rfind t needle in
      if r =? -1 then (if Byte.eqb x needle then 0 else -1) else r + 1
  end.

(** *** [str.rstrip(ch)]: every trailing occurrence of [ch] is removed *)

Fixpoint rstrip (s : str) (ch : Z) : str :=
  match s with
  | [] => []
  | c :: t =>
      match rstrip t ch with
      | [] => if c =? ch then [] else [c]
      | t' => c :: t'
      end
  end.

(** ** Strict UTF-8 decoding, [bytes.decode("utf-8")]

    [None] stands for [UnicodeDecodeError].  Overlong forms, surrogates and
    values above U+10FFFF are rejected, as CPython does. *)

Definition between (lo hi : Z) (b : byte) : bool :=
  (lo <=? byte_val b) && (byte_val b <=? hi).

Definition is_cont (b : byte) : bool := between 128 191 b.

Definition second_lo3 (b0 : byte) : Z := if byte_val b0 =? 224 then 160 else 128.
Definition second_hi3 (b0 : byte) : Z := if byte_val b0 =? 237 then 159 else 191.
Definition second_lo4 (b0 : byte) : Z := if byte_val b0 =? 240 then 144 else 128.
Definition second_hi4 (b0 : byte) : Z := if byte_val b0 =? 244 then 143 else 191.

(** Code point of a two-, three- and four-byte form: the payload bits of
    the lead byte followed by six bits of every continuation byte. *)
Definition cp2 (b0 b1 : byte) : Z :=
  (byte_val b0 - 192) * 64 + (byte_val b1 - 128).
Definition cp3 (b0 b1 b2 : byte) : Z :=
  (byte_val b0 - 224) * 4096 + (byte_val b1 - 128) * 64 + (byte_val b2 - 128).
Definition cp4 (b0 b1 b2 b3 : byte) : Z :=
  (byte_val b0 - 240) * 262144 + (byte_val b1 - 128) * 4096
  + (byte_val b2 - 128) * 64 + (byte_val b3 - 128).

Definition push (c : Z) (r : option str) : option str :=
  match r with Some s => Some (c :: s) | None => None end.

Fixpoint decode (bs : bytes) : option str :=
  match bs with
  | [] => Some []
  | b0 :: r0 =>
      if byte_val b0 <? 128 then push (byte_val b0) (decode r0)
      else if between 194 223 b0 then
        match r0 with
        | b1 :: r1 =>
            if is_cont b1 then push (cp2 b0 b1) (decode r1) else None
        | _ => None
        end
      else if between 224 239 b0 then
        match r0 with
        | b1 :: b2 :: r2 =>
            if between (second_lo3 b0) (second_hi3 b0) b1 && is_cont b2
            then push (cp3 b0 b1 b2) (decode r2) else None
        | _ => None
        end
      else if between 240 244 b0 then
        match r0 with
        | b1 :: b2 :: b3 :: r3 =>
            if between (second_lo4 b0) (second_hi4 b0) b1
               && is_cont b2 && is_cont b3
            then push (cp4 b0 b1 b2 b3) (decode r3) else None
        | _ => None
        end
      else None
  end.

(** ** The file handle

    [content] is what the opened file holds.  [fault], when present, makes
    the [k]-th backward fetch (counting from 0) raise an [OSError] carrying
    the given text: a device or permission failure in the middle of a scan. *)

Record file := {
  content : bytes;
  fault : option (nat * string)
}.

(** The exception text of the [k]-th fetch, if that is the failing one. *)
Definition fault_at (f : file) (k : nat) : option string :=
  match fault f with
  | Some (j, msg) => if Nat.eqb k j then Some msg else None
  | None => None
  end.

(** [f.seek(pos); f.read(size)] as the [k]-th fetch.  The right injection is
    the text of the exception raised.  A buffered reader refuses sizes below
    [-1], and [-1] reads up to the end of the file. *)
Definition seek_read (f : file) (k : nat) (pos size : Z) : bytes + string :=
  match fault_at f k with
  | Some msg => inr msg
  | None =>
      if size <? -1 then inr "read length must be non-negative or -1"%string
      else if size =? -1 then inl (skipn (Z.to_nat pos) (content f))
      else inl (firstn (Z.to_nat size) (skipn (Z.to_nat pos) (content f)))
  end.

(** ** Control points of [reverse_lines_chunked] *)

Inductive point :=
| AtWhilePosition                (* test of [while position > 0] *)
| AtWhileTrue                    (* head of the inner [while True] *)
| AtDecode                       (* candidate cut off, before [decode] *)
| AtFlush                        (* [if buffer:] after the outer loop *)
| Returned (value : list str)    (* the [return self.lines] was reached *)
| Raised (e : string).           (* an exception leaves the [with] block *)

Record config := {
  at_point : point;
  position : Z;
  buffer : bytes;
  lines : list str;              (* [self.lines] *)
  nl_index : Z;
  line_bytes : bytes;
  fetches : nat;                 (* backward fetches issued so far *)
  printed : list string          (* what [print] wrote *)
}.

Definition normalize (line : str) : str := rstrip line CR ++ [LF].

Definition msg_not_found (filepath : string) : string :=
  ("File not found: " ++ filepath)%string.
Definition msg_error (e : string) : string :=
  ("Error during chunked reverse read: " ++ e)%string.
Definition msg_warning : string :=
  " Warning: Could not decode some final bytes."%string.

(** State on entry of the [with] block: the cursor is at the end of the file. *)
Definition initial (f : file) : config :=
  {| at_point := AtWhilePosition; position := len (content f); buffer := [];
     lines := []; nl_index := 0; line_bytes := []; fetches := 0;
     printed := [] |}.

(** One transition of the method. *)
Definition step (f : file) (chunk_size : Z) (s : config) : config :=
  match at_point s with
  | AtWhilePosition =>
      if 0 <? position s then
        (* read_size = min(chunk_size, position); position -= read_size;
           f.seek(position); chunk = f.read(read_size);
           buffer = chunk + buffer *)
        let read_size := Z.min chunk_size (position s) in
        let position' := position s - read_size in
        match seek_read f (fetches s) position' read_size with
        | inl chunk =>
            {| at_point := AtWhileTrue; position := position';
               buffer := chunk ++ buffer s; lines := lines s;
               nl_index := nl_index s; line_bytes := line_bytes s;
               fetches := S (fetches s); printed := printed s |}
        | inr e =>
            {| at_point := Raised e; position := position';
               buffer := buffer s; lines := lines s;
               nl_index := nl_index s; line_bytes := line_bytes s;
               fetches := fetches s; printed := printed s |}
        end
      else
        {| at_point := AtFlush; position := position s; buffer := buffer s;
           lines := lines s; nl_index := nl_index s;
           line_bytes := line_bytes s; fetches := fetches s;
           printed := printed s |}
  | AtWhileTrue =>
      (* nl_index = buffer.rfind(newline); if nl_index == -1: break;
         line_bytes = buffer[nl_index + 1:]; buffer = buffer[:nl_index + 1] *)
      let i := rfind (buffer s) newline in
      if i =? -1 then
        {| at_point := AtWhilePosition; position := position s;
           buffer := buffer s; lines := lines s; nl_index := i;
           line_bytes := line_bytes s; fetches := fetches s;
           printed := printed s |}
      else
        {| at_point := AtDecode; position := position s;
           buffer := slice_to (i + 1) (buffer s); lines := lines s;
           nl_index := i; line_bytes := slice_from (i + 1) (buffer s);
           fetches := fetches s; printed := printed s |}
  | AtDecode =>
      match decode (line_bytes s) with
      | Some line =>
          (* if len(line) > 0: self.lines.append(line.rstrip('\r') + '\n');
             buffer = buffer[:nl_index] *)
          {| at_point := AtWhileTrue; position := position s;
             buffer := slice_to (nl_index s) (buffer s);
             lines := if 0 <? len line then lines s ++ [normalize line]
                      else lines s;
             nl_index := nl_index s; line_bytes := line_bytes s;
             fetches := fetches s; printed := printed s |}
      | None =>
          (* except UnicodeDecodeError: buffer = line_bytes + buffer; break *)
          {| at_point := AtWhilePosition; position := position s;
             buffer := line_bytes s ++ buffer s; lines := lines s;
             nl_index := nl_index s; line_bytes := line_bytes s;
             fetches := fetches s; printed := printed s |}
      end
  | AtFlush =>
      (* if buffer: try: self.lines.append(...) except: print(warning);
         return self.lines *)
      match buffer s with
      | [] =>
          {| at_point := Returned (lines s); position := position s;
             buffer := buffer s; lines := lines s; nl_index := nl_index s;
             line_bytes := line_bytes s; fetches := fetches s;
             printed := printed s |}
      | _ :: _ =>
          match decode (buffer s) with
          | Some line =>
              {| at_point := Returned (lines s ++ [normalize line]);
                 position := position s; buffer := buffer s;
                 lines := lines s ++ [normalize line];
                 nl_index := nl_index s; line_bytes := line_bytes s;
                 fetches := fetches s; printed := printed s |}
          | None =>
              {| at_point := Returned (lines s); position := position s;
                 buffer := buffer s; lines := lines s;
                 nl_index := nl_index s; line_bytes := line_bytes s;
                 fetches := fetches s;
                 printed := printed s ++ [msg_warning] |}
          end
      end
  | Returned _ | Raised _ => s
  end.

(** What the caller observes once the method has returned. *)
Record outcome := {
  result : list str;             (* the returned list *)
  self_lines : list str;         (* [self.lines] afterwards *)
  stdout : list string
}.

(** Exceptions that reach the [except] clauses of the method. *)
Inductive exn :=
| FileNotFoundError
| Exception (text : string).

(** The two handlers: both print and return an empty list. *)
Definition handler (filepath : string) (e : exn)
    (self_lines_now : list str) (printed_now : list string) : outcome :=
  match e with
  | FileNotFoundError =>
      {| result := []; self_lines := self_lines_now;
         stdout := printed_now ++ [msg_not_found filepath] |}
  | Exception text =>
      {| result := []; self_lines := self_lines_now;
         stdout := printed_now ++ [msg_error text] |}
  end.

(** How the method ends from a configuration where the [try] block is left. *)
Definition conclude (filepath : string) (s : config) : option outcome :=
  match at_point s with
  | Returned v =>
      Some {| result := v; self_lines := lines s; stdout := printed s |}
  | Raised e => Some (handler filepath (Exception e) (lines s) (printed s))
  | _ => None
  end.

Fixpoint run (filepath : string) (f : file) (chunk_size : Z) (fuel : nat)
    (s : config) : option outcome :=
  match conclude filepath s with
  | Some o => Some o
  | None =>
      match fuel with
      | O => None
      | S fuel' => run filepath f chunk_size fuel' (step f chunk_size s)
      end
  end.

(** Transitions that always suffice when [chunk_size >= 1]; see
    [run_terminates]. *)
Definition enough_fuel (f : file) : nat :=
  Z.to_nat (8 * len (content f) + 2).

(** What [open(self.filepath, 'rb')] finds. *)
Inductive path_status :=
| Missing                        (* [FileNotFoundError] *)
| Unopenable (e : string)        (* [open] raises another exception *)
| Present (f : file).

(** [txt_lines.reverse_lines_chunked].  [None] only when the transitions
    above run out, which is how a scan that never ends shows up. *)
Definition reverse_lines_chunked
    (filepath : string) (st : path_status) (chunk_size : Z) : option outcome :=
  match st with
  | Missing => Some (handler filepath FileNotFoundError [] [])
  | Unopenable e => Some (handler filepath (Exception e) [] [])
  | Present f => run filepath f chunk_size (enough_fuel f) (initial f)
  end.

(** A file read without failures. *)
Definition sound (F : bytes) : file := {| content := F; fault := None |}.

(** The returned list for a file that is there and reads without failure. *)
Definition reversed_lines (F : bytes) (chunk_size : Z) : option (list str) :=
  match reverse_lines_chunked "f.txt" (Present (sound F)) chunk_size with
  | Some o => Some (result o)
  | None => None
  end.

(** The configuration after [n] transitions. *)
Fixpoint after (f : file) (chunk_size : Z) (n : nat) (s : config) : config :=
  match n with
  | O => s
  | S n' => after f chunk_size n' (step f chunk_size s)
  end.

(** The first character of a byte sequence and what follows it. *)
Definition decode_one (bs : bytes) : option (Z * bytes) :=
  match bs with
  | [] => None
  | b0 :: r0 =>
      if byte_val b0 <? 128 then Some (byte_val b0, r0)
      else if between 194 223 b0 then
        match r0 with
        | b1 :: r1 => if is_cont b1 then Some (cp2 b0 b1, r1) else None
        | _ => None
        end
      else if between 224 239 b0 then
        match r0 with
        | b1 :: b2 :: r2 =>
            if between (second_lo3 b0) (second_hi3 b0) b1 && is_cont b2
            then Some (cp3 b0 b1 b2, r2) else None
        | _ => None
        end
      else if between 240 244 b0 then
        match r0 with
        | b1 :: b2 :: b3 :: r3 =>
            if between (second_lo4 b0) (second_hi4 b0) b1
               && is_cont b2 && is_cont b3
            then Some (cp4 b0 b1 b2 b3, r3) else None
        | _ => None
        end
      else None
  end.

Ltac split_lead b0 r0 :=
  destruct (byte_val b0 <? 128) eqn:?;
  [| destruct (between 194 223 b0) eqn:?;
     [ destruct r0 as [|?b1 ?r1]
     | destruct (between 224 239 b0) eqn:?;
       [ destruct r0 as [|?b1 [|?b2 ?r2]]
       | destruct (between 240 244 b0) eqn:?;
         [ destruct r0 as [|?b1 [|?b2 [|?b3 ?r3]]] | ] ] ] ].

(** ** What the scan is expected to produce

    The spans of a file are the byte runs between line feeds. *)

Fixpoint split_nl (bs : bytes) : list bytes :=
  match bs with
  | [] => [[]]
  | b :: t =>
      if Byte.eqb b newline then [] :: split_nl t
      else match split_nl t with
           | s :: r => (b :: s) :: r
           | [] => [[b]]
           end
  end.

(** What one span contributes to the output: nothing when it is empty,
    otherwise its text without trailing carriage returns, closed by one
    line feed. *)
Definition emitted_for (span : bytes) : list str :=
  match decode span with
  | Some line => if 0 <? len line then [normalize line] else []
  | None => []
  end.

Definition expected_output (F : bytes) : list str :=
  rev (flat_map emitted_for (split_nl F)).

(** Length of the longest run of bytes free of line feeds. *)
Definition longest_span (F : bytes) : Z :=
  fold_right Z.max 0 (map len (split_nl F)).

Definition utf8_valid (F : bytes) : bool :=
  match decode F with Some _ => true | None => false end.

(** The file bytes at offsets [lo <= i < hi]. *)
Definition interval (F : bytes) (lo hi : Z) : bytes :=
  firstn (Z.to_nat (hi - lo)) (skipn (Z.to_nat lo) F).

(** *** The forward reading the round-trip property is worded against

    The lines of a file in physical order: its spans, except the empty one
    that follows a final terminator; each is decoded, loses the carriage
    return of a [\r\n] terminator and is closed by one line feed. *)

Definition strip_one_cr (s : str) : str :=
  match rev s with
  | ch :: r => if ch =? CR then rev r else s
  | [] => s
  end.

Definition normalize_one_cr (line : str) : str := strip_one_cr line ++ [LF].

Definition physical_lines (F : bytes) : list bytes :=
  match rev (split_nl F) with
  | [] :: r => rev r
  | _ => split_nl F
  end.

Definition forward_lines (F : bytes) : list str :=
  flat_map (fun span => match decode span with
                        | Some text => [normalize_one_cr text]
                        | None => []
                        end)
           (physical_lines F).

(** The candidate that a transition decodes: the bytes cut off behind the
    last line feed of the buffer, or the whole remaining buffer after the
    loop. *)
Definition candidate (s : config) : option bytes :=
  match at_point s with
  | AtDecode => Some (line_bytes s)
  | AtFlush => match buffer s with [] => None | _ :: _ => Some (buffer s) end
  | _ => None
  end.

(** What the transition from [s] appends to [self.lines]. *)
Definition appended (s : config) : list str :=
  match at_point s with
  | AtDecode =>
      match decode (line_bytes s) with
      | Some line => if 0 <? len line then [rstrip line CR ++ [LF]] else []
      | None => []
      end
  | AtFlush =>
      match buffer s with
      | [] => []
      | _ :: _ =>
          match decode (buffer s) with
          | Some line => [rstrip line CR ++ [LF]]
          | None => []
          end
      end
  | _ => []
  end.

(** ** Reachable configurations and the quantities the proofs follow *)

Definition reachable (f : file) (chunk_size : Z) (s : config) : Prop :=
  exists n, s = after f chunk_size n (initial f).

(** Bytes read from the file and not yet settled: the buffer, and the
    candidate while it is held apart from it. *)
Definition pending (s : config) : bytes :=
  match at_point s with
  | AtDecode => buffer s ++ line_bytes s
  | _ => buffer s
  end.

Definition weight (p : point) : Z :=
  match p with
  | Returned _ | Raised _ => 0
  | AtFlush => 1
  | AtWhilePosition => 2
  | AtDecode => 3
  | AtWhileTrue => 4
  end.

(** Decreases with every transition of a scan with [chunk_size >= 1]. *)
Definition measure (s : config) : Z :=
  8 * position s + 4 * len (pending s) + weight (at_point s).

(** The [try] block has been left. *)
Definition ended (s : config) : bool :=
  match at_point s with
  | Returned _ | Raised _ => true
  | _ => false
  end.

(** Holds of every reachable configuration, whatever the file holds. *)
Definition well_formed (F : bytes) (s : config) : Prop :=
  0 <= position s <= len F /\
  (at_point s = AtDecode -> len (buffer s) = nl_index s + 1 /\ 0 <= nl_index s)
  /\ (at_point s = AtFlush -> position s = 0).

(** Holds of every reachable configuration of a scan of a UTF-8-valid file
    read without failure: [pre] is the part of the file before the cursor,
    [rest] the part already settled, and the pending bytes lie between. *)
Definition scan_inv (F : bytes) (chunk_size : Z) (s : config) : Prop :=
  len (pending s) <= chunk_size + longest_span F /\
  printed s = [] /\
  match at_point s with
  | Returned v => v = expected_output F /\ lines s = v
  | Raised _ => False
  | p =>
      exists pre rest,
        F ++ [newline] = pre ++ pending s ++ newline :: rest /\
        len pre = position s /\
        lines s = expected_output rest /\
        match p with
        | AtWhilePosition => ~ In newline (buffer s)
        | AtDecode =>
            exists b', buffer s = b' ++ [newline] /\ nl_index s = len b' /\
                       ~ In newline (line_bytes s)
        | AtFlush => position s = 0 /\ ~ In newline (buffer s)
        | _ => True
        end
  end.

(** Holds of every reachable configuration of a scan whose [k]-th fetch
    fails with [msg] before the start of the file is reached: up to the
    failing fetch nothing is printed and the loop is not left; the exception
    leaves the configuration that attempted the fetch. *)
Definition before_failure (f : file) (c : Z) (k : nat) (msg : string)
    (s : config) : Prop :=
  printed s = [] /\
  match at_point s with
  | Returned _ | AtFlush => False
  | Raised e =>
      e = msg /\
      exists s0, reachable f c s0 /\ at_point s0 = AtWhilePosition /\
                 fetches s0 = k /\ lines s = lines s0
  | _ =>
      (fetches s <= k)%nat /\
      position s = Z.max 0 (len (content f) - Z.of_nat (fetches s) * c)
  end.

Ltac fields :=
  cbn [at_point position buffer lines nl_index line_bytes fetches printed
       weight].

(** ** The rest of [txt_lines]: construction and forward iteration *)

(** An object of the class. *)
Record txt_lines := {
  obj_filepath : option string;  (* [self.filepath], [None] by default *)
  obj_lines : list str;          (* [self.lines] *)
  lines_iterator : Z             (* [self.lines_iterator] *)
}.

(** Exceptions that leave a method of the class. *)
Inductive raised :=
| RaisedFileNotFound
| RaisedUnicodeDecode
| RaisedIndexError
| RaisedOther (text : string).

(** What a text-mode file gives for the decoded content: with universal
    newlines, [\r\n] and a lone [\r] are both read as [\n]. *)
Fixpoint universal_newlines (t : str) : str :=
  match t with
  | [] => []
  | ch :: r =>
      if ch =? CR then
        match r with
        | d :: r' => if d =? LF then LF :: universal_newlines r'
                     else LF :: universal_newlines r
        | [] => [LF]
        end
      else ch :: universal_newlines r
  end.

(** [f.readlines()] on a text: the lines, each with its line feed; the last
    one has none when the text does not end with one. *)
Fixpoint readlines (t : str) : list str :=
  match t with
  | [] => []
  | ch :: r =>
      if ch =? LF then [LF] :: readlines r
      else match readlines r with
           | [] => [[ch]]
           | l :: ls => (ch :: l) :: ls
           end
  end.

(** [txt_lines.read_lines]: the file is opened in text mode as UTF-8 and
    read whole; nothing is caught. *)
Definition read_lines (st : path_status) : list str + raised :=
  match st with
  | Missing => inr RaisedFileNotFound
  | Unopenable e => inr (RaisedOther e)
  | Present f =>
      match decode (content f) with
      | Some text => inl (readlines (universal_newlines text))
      | None => inr RaisedUnicodeDecode
      end
  end.

(** Truth value of [filepath] in [... if filepath else []]. *)
Definition truthy (filepath : option string) : bool :=
  match filepath with
  | Some EmptyString | None => false
  | Some _ => true
  end.

(** [txt_lines.__init__]; [st] is what the path leads to. *)
Definition __init__ (filepath : option string) (st : path_status)
  : txt_lines + raised :=
  if truthy filepath then
    match read_lines st with
    | inl ls =>
        inl {| obj_filepath := filepath; obj_lines := ls;
               lines_iterator := 0 |}
    | inr e => inr e
    end
  else inl {| obj_filepath := filepath; obj_lines := []; lines_iterator := 0 |}.

(** [l[i]] with Python's negative indices; [None] is [IndexError]. *)
Definition index {A} (l : list A) (i : Z) : option A :=
  if 0 <=? i then nth_error l (Z.to_nat i)
  else if 0 <=? len l + i then nth_error l (Z.to_nat (len l + i))
  else None.

Definition msg_no_more : string :=
  ("No more lines to iterate."
   ++ String (Ascii.ascii_of_nat 10)
        "If you like to reset the iterator, use the object.reset() method.")%string.

(** What a call of [__next__] gives back. *)
Inductive next_value :=
| Line (l : str)
| NoneValue                      (* the value of [print(...)] *)
| Raises (e : raised).

(** [txt_lines.__next__]: value, printed text and the object afterwards. *)
Definition __next__ (self : txt_lines) : next_value * list string * txt_lines :=
  if len (obj_lines self) <=? lines_iterator self then
    (NoneValue, [msg_no_more], self)
  else
    match index (obj_lines self) (lines_iterator self) with
    | Some current_line =>
        (Line current_line, [],
         {| obj_filepath := obj_filepath self; obj_lines := obj_lines self;
            lines_iterator := lines_iterator self + 1 |})
    | None => (Raises RaisedIndexError, [], self)
    end.

(** [txt_lines.reset]. *)
Definition reset (self : txt_lines) : txt_lines :=
  {| obj_filepath := obj_filepath self; obj_lines := obj_lines self;
     lines_iterator := 0 |}.

(** [n] calls of [__next__] in a row: the values, all that was printed and
    the object afterwards. *)
Fixpoint calls (n : nat) (self : txt_lines)
  : list next_value * list string * txt_lines :=
  match n with
  | O => ([], [], self)
  | S n' =>
      let '(v, out, self1) := __next__ self in
      let '(vs, outs, self2) := calls n' self1 in
      (v :: vs, (out ++ outs)%list, self2)
  end.

(** [reverse_lines_chunked] as a method of the object: [self.lines] is
    replaced, the iterator is left where it was. *)
Definition reverse_method (self : txt_lines) (st : path_status)
    (chunk_size : Z) : option (list str * list string * txt_lines) :=
  let path := match obj_filepath self with
              | Some p => p
              | None => "None"%string
              end in
  match reverse_lines_chunked path st chunk_size with
  | Some o =>
      Some (result o, stdout o,
            {| obj_filepath := obj_filepath self; obj_lines := self_lines o;
               lines_iterator := lines_iterator self |})
  | None => None
  end.

(** A line of [readlines] closed by a line feed when it has none. *)
Definition closed (l : str) : str :=
  if last l 0 =? LF then l else l ++ [LF].

(** A line of [readlines] that is more than a line feed. *)
Definition not_blank (l : str) : bool :=
  match l with
  | [ch] => negb (ch =? LF)
  | _ => true
  end.

(** ** [Transaction] and [TransactionReconciler] *)

Record Transaction := {
  date : string;
  department : string;
  value : string;
  beneficiary : string
}.

(** [Transaction.to_list]. *)
Definition to_list (self : Transaction) : list string :=
  [date self; department self; value self; beneficiary self].

(** [Transaction.from_list]: the class called on the elements of [row];
    [None] is the [TypeError] of a call with too few or too many arguments. *)
Definition from_list (row : list string) : option Transaction :=
  match row with
  | [d; dep; v; b] =>
      Some {| date := d; department := dep; value := v; beneficiary := b |}
  | _ => None
  end.

(** [Transaction.__eq__] between two transactions. *)
Definition __eq__ (self other : Transaction) : bool :=
  (date self =? date other)%string
  && (department self =? department other)%string
  && (value self =? value other)%string
  && (beneficiary self =? beneficiary other)%string.

Definition FOUND : string := "FOUND".
Definition MISSING : string := "MISSING".

(** [enumerate(l)]. *)
Definition enumerate {A} (l : list A) : list (nat * A) :=
  combine (seq 0 (length l)) l.

Section Reconciliation.
(** [datetime.strptime(s, "%Y-%m-%d")] as the number of the day it denotes;
    [None] is its [ValueError]. *)
Variable strptime : string -> option Z.

(** [Transaction.is_match_with_tolerance]. *)
Definition is_match_with_tolerance (self other : Transaction) : bool :=
  if negb (department self =? department other)%string
     || negb (value self =? value other)%string
     || negb (beneficiary self =? beneficiary other)%string
  then false
  else
    match strptime (date self), strptime (date other) with
    | Some date1, Some date2 => Z.abs (date1 - date2) <=? 1
    | _, _ => false
    end.

(** The list comprehension of [reconcile]: the partners of [tx] in [group]
    that are not matched yet, with their indices. *)
Definition candidates (tx : Transaction) (group : list Transaction)
    (matched : list nat) : list (nat * Transaction) :=
  filter (fun c => negb (existsb (Nat.eqb (fst c)) matched)
                   && is_match_with_tolerance tx (snd c))
         (enumerate group).

(** [candidates.sort(key=lambda x: x[1].date)]: a stable sort on the date
    strings, compared as strings. *)
Fixpoint insert_by_date (c : nat * Transaction)
    (l : list (nat * Transaction)) : list (nat * Transaction) :=
  match l with
  | [] => [c]
  | y :: r =>
      if (date (snd y) <? date (snd c))%string
      then y :: insert_by_date c r
      else c :: y :: r
  end.

Definition sort_by_date (l : list (nat * Transaction))
  : list (nat * Transaction) :=
  fold_right insert_by_date [] l.

(** The index matched to [tx], if any: [candidates[0]] after the sort. *)
Definition choose (tx : Transaction) (group : list Transaction)
    (matched : list nat) : option nat :=
  match sort_by_date (candidates tx group matched) with
  | (idx, _) :: _ => Some idx
  | [] => None
  end.

(** [matched.add(idx)] on a set kept as a list. *)
Definition set_add (idx : nat) (matched : list nat) : list nat :=
  if existsb (Nat.eqb idx) matched then matched else idx :: matched.

(** One round of a loop of [reconcile]: the set of matched indices and the
    rows built so far, before and after [tx]. *)
Definition reconcile_step (group : list Transaction)
    (st : list nat * list (list string)) (tx : Transaction)
  : list nat * list (list string) :=
  match choose tx group (fst st) with
  | Some idx =>
      (set_add idx (fst st), snd st ++ [to_list tx ++ [FOUND]])
  | None => (fst st, snd st ++ [to_list tx ++ [MISSING]])
  end.

(** One loop of [reconcile]: every transaction of [xs] against [ys]. *)
Definition reconcile_pass (xs ys : list Transaction)
  : list nat * list (list string) :=
  fold_left (reconcile_step ys) xs ([], []).

(** [TransactionReconciler.reconcile]: the same loop, each way. *)
Definition reconcile (group_a group_b : list Transaction)
  : list (list string) * list (list string) :=
  (snd (reconcile_pass group_a group_b), snd (reconcile_pass group_b group_a)).
End Reconciliation.

(** Rows of a result that are labelled [FOUND]. *)
Definition is_found (row : list string) : bool :=
  (last row EmptyString =? FOUND)%string.

Definition found_count (rows : list (list string)) : nat :=
  length (filter is_found rows).

(** ** [ComputedProperty] and the injected [__setattr__]

    Attribute values are immutable objects of any kind.  The function of a
    property is a function of the attributes of the instance, and the
    dependencies name ordinary instance attributes. *)

Section ComputedProperties.
(** The values, and the two comparisons of Python that the code applies to
    them: [py_eq x y] is what comparing the items [x] and [y] of two tuples
    gives (the same object, or [x == y]); [str_eq name x] is what looking
    the string [name] up in a tuple gives on its item [x]. *)
Variable value : Type.
Variable py_eq : value -> value -> bool.
Variable str_eq : string -> value -> bool.

(** Two slots of a tuple of dependencies; [None] is the sentinel [_MISSING],
    an object equal to itself only. *)
Definition slot_eq (x y : option value) : bool :=
  match x, y with
  | Some a, Some b => py_eq a b
  | None, None => true
  | _, _ => false
  end.

(** [current_deps == last_deps] on tuples. *)
Fixpoint tuple_eq (xs ys : list (option value)) : bool :=
  match xs, ys with
  | [], [] => true
  | x :: xs', y :: ys' => slot_eq x y && tuple_eq xs' ys'
  | _, _ => false
  end.

(** [instance.__dict__] without the cache, and the cache
    [instance.__dict__['_computed_cache']], keyed by property name. *)
Record instance := {
  attrs : string -> option value;
  computed_cache : option (string -> option (value * list (option value)))
}.

Record ComputedProperty := {
  func : (string -> option value) -> value;
  dependencies : list string;    (* the set, in its iteration order *)
  prop_name : string             (* [self._name] *)
}.

(** [tuple(getattr(instance, dep, _MISSING) for dep in self.dependencies)]. *)
Definition current_deps (p : ComputedProperty) (inst : instance)
  : list (option value) :=
  map (attrs inst) (dependencies p).

(** [ComputedProperty.__get__] on an instance: the value, whether the
    function was called, and the instance afterwards. *)
Definition __get__ (p : ComputedProperty) (inst : instance)
  : value * bool * instance :=
  let cache := match computed_cache inst with
               | Some c => c
               | None => fun _ => None
               end in
  let recompute :=
    let result := func p (attrs inst) in
    (result, true,
     {| attrs := attrs inst;
        computed_cache :=
          Some (fun key => if (key =? prop_name p)%string
                           then Some (result, current_deps p inst)
                           else cache key) |}) in
  match cache (prop_name p) with
  | Some (cached_value, last_deps) =>
      if tuple_eq (current_deps p inst) last_deps
      then (cached_value, false,
            {| attrs := attrs inst; computed_cache := Some cache |})
      else recompute
  | None => recompute
  end.

(** [name in deps] for the tuple stored in the cache: the name is compared
    with the stored values. *)
Definition name_in (name : string) (deps : list (option value)) : bool :=
  existsb (fun d => match d with
                    | Some x => str_eq name x
                    | None => false
                    end) deps.

(** [custom_setattr] for an ordinary attribute: entries of the cache are
    deleted first, then the attribute is set. *)
Definition custom_setattr (inst : instance) (name : string) (v : value)
  : instance :=
  {| attrs := fun key => if (key =? name)%string then Some v
                         else attrs inst key;
     computed_cache :=
       match computed_cache inst with
       | Some c =>
           Some (fun key => match c key with
                            | Some (cached, deps) =>
                                if name_in name deps then None
                                else Some (cached, deps)
                            | None => None
                            end)
       | None => None
       end |}.

(** What a program does with an instance. *)
Inductive operation :=
| Get (p : ComputedProperty)
| SetAttr (name : string) (v : value).

Fixpoint run_operations (ops : list operation) (inst : instance) : instance :=
  match ops with
  | [] => inst
  | Get p :: r => run_operations r (snd (__get__ p inst))
  | SetAttr name v :: r => run_operations r (custom_setattr inst name v)
  end.

(** The cached entry of [p], if any, is the value of its function wherever
    the dependencies compare equal to the stored ones. *)
Definition entry_valid (p : ComputedProperty) (inst : instance) : Prop :=
  forall c cached deps,
    computed_cache inst = Some c -> c (prop_name p) = Some (cached, deps) ->
    forall a, tuple_eq (map a (dependencies p)) deps = true ->
              func p a = cached.
End ComputedProperties.

Arguments attrs {value}.
Arguments computed_cache {value}.
Arguments func {value}.
Arguments dependencies {value}.
Arguments prop_name {value}.
Arguments Get {value}.
Arguments SetAttr {value}.

(** Some values of Python, for examples: [None], booleans, integers and
    strings, with [==] between them; [True] and [False] are equal to the
    integers 1 and 0. *)
Inductive pyval :=
| VNone
| VBool (b : bool)
| VInt (n : Z)
| VStr (s : string).

Definition pyval_eq (x y : pyval) : bool :=
  match x, y with
  | VNone, VNone => true
  | VBool a, VBool b => Bool.eqb a b
  | VInt n, VInt m => n =? m
  | VBool a, VInt m | VInt m, VBool a => m =? (if a then 1 else 0)
  | VStr s, VStr t => (s =? t)%string
  | _, _ => false
  end.

Definition pyval_str_eq (name : string) (x : pyval) : bool :=
  match x with
  | VStr s => (s =? name)%string
  | _ => false
  end.

(** The number that a slot holds, for arithmetic: [True] counts as [1] and
    [False] as [0]; used by the example property [area] below. *)
Definition as_number (x : option pyval) : option Z :=
  match x with
  | Some (VInt n) => Some n
  | Some (VBool b) => Some (if b then 1 else 0)
  | _ => None
  end.

Definition area : ComputedProperty pyval :=
  {| func := fun a => match as_number (a "w"%string),
                            as_number (a "h"%string) with
                      | Some w, Some h => VInt (w * h)
                      | _, _ => VNone
                      end;
     dependencies := ["w"; "h"]%string;
     prop_name := "area" |}.

(** ** Invariants of particular scans *)

(** Holds of every reachable configuration of a scan, read without failure,
    of a file [F] that holds no line feed: nothing is emitted before the
    loop is left and the buffer is the part of the file behind the cursor. *)
Definition single_line_inv (F : bytes) (s : config) : Prop :=
  match at_point s with
  | AtWhilePosition | AtWhileTrue =>
      lines s = [] /\ printed s = [] /\
      exists pre, F = pre ++ buffer s /\ len pre = position s
  | AtFlush => lines s = [] /\ printed s = [] /\ buffer s = F
  | AtDecode | Raised _ => False
  | Returned v =>
      match decode F with
      | Some line => v = [normalize line] /\ lines s = v /\ printed s = []
      | None => v = [] /\ lines s = [] /\ printed s = [msg_warning]
      end
  end.

(** Holds of every reachable configuration of a scan with chunk size 0 of a
    non-empty file: the cursor never moves and the loop is never left. *)
Definition stuck_inv (F : bytes) (s : config) : Prop :=
  (at_point s = AtWhilePosition \/ at_point s = AtWhileTrue) /\
  position s = len F /\ buffer s = [].

(** Holds of every reachable configuration of a scan read without failure:
    after [j] fetches the cursor is at [max(0, N - j * chunk_size)], and the
    last fetch was needed. *)
Definition fetch_inv (F : bytes) (c : Z) (s : config) : Prop :=
  position s = Z.max 0 (len F - Z.of_nat (fetches s) * c) /\
  (fetches s = 0%nat \/ (Z.of_nat (fetches s) - 1) * c < len F) /\
  match at_point s with
  | AtFlush | Returned _ => position s = 0
  | Raised _ => False
  | _ => True
  end.

(** Holds of every reachable configuration of a scan read without failure:
    no exception leaves the loop, nothing is printed before the end, and
    what is returned is [self.lines]. *)
Definition quiet_inv (s : config) : Prop :=
  match at_point s with
  | Raised _ => False
  | Returned v =>
      v = lines s /\ (printed s = [] \/ printed s = [msg_warning])
  | _ => printed s = []
  end.

(** ** Examples *)

Example decode_e_acute : decode [xc3; xa9] = Some [233].
Proof. reflexivity. Qed.
Example decode_euro : decode [xe2; x82; xac; x0a] = Some [8364; 10].
Proof. reflexivity. Qed.
Example decode_emoji : decode [xf0; x9f; x98; x80] = Some [128512].
Proof. reflexivity. Qed.
Example decode_surrogate : decode [xed; xa0; x80] = None.
Proof. reflexivity. Qed.
Example decode_overlong : decode [xc0; x8a] = None.
Proof. reflexivity. Qed.
Example decode_truncated : decode [xe2; x82] = None.
Proof. reflexivity. Qed.
Example rstrip_all : rstrip [97; 13; 98; 13; 13] CR = [97; 13; 98].
Proof. reflexivity. Qed.
Example rfind_last : rfind [x61; x0a; x62; x0a; x63] newline = 3.
Proof. reflexivity. Qed.

(** The examples of the specification. *)
Example three_lines :
  reversed_lines [x61; x0a; x62; x0a; x63; x0a] 1
  = Some [[99; 10]; [98; 10]; [97; 10]] /\
  reversed_lines [x61; x0a; x62; x0a; x63; x0a] 4
  = Some [[99; 10]; [98; 10]; [97; 10]] /\
  reversed_lines [x61; x0a; x62; x0a; x63; x0a] 8192
  = Some [[99; 10]; [98; 10]; [97; 10]].
Proof. repeat split; reflexivity. Qed.
Example no_final_terminator :
  reversed_lines [x61; x0a; x62] 2 = Some [[98; 10]; [97; 10]].
Proof. reflexivity. Qed.
Example crlf_lines :
  reversed_lines [x61; x0d; x0a; x62; x0d; x0a] 3 = Some [[98; 10]; [97; 10]].
Proof. reflexivity. Qed.
Example chunk_inside_character :
  reversed_lines [xe2; x82; xac; x0a; xe2; x82; xac] 2
  = Some [[8364; 10]; [8364; 10]].
Proof. reflexivity. Qed.
Example empty_file :
  reverse_lines_chunked "empty.txt" (Present (sound [])) 8192
  = Some {| result := []; self_lines := []; stdout := [] |}.
Proof. reflexivity. Qed.

(** ** Lists, slices and [rfind] *)

Lemma len_app {A} (l1 l2 : list A) : len (l1 ++ l2) = len l1 + len l2.
Proof. unfold len. rewrite length_app. lia. Qed.

Lemma len_nonneg {A} (l : list A) : 0 <= len l.
Proof. unfold len. lia. Qed.

Lemma len_cons {A} (x : A) (l : list A) : len (x :: l) = len l + 1.
Proof. unfold len. simpl length. lia. Qed.

Lemma slice_to_app {A} (l1 l2 : list A) : slice_to (len l1) (l1 ++ l2) = l1.
Proof.
  unfold slice_to, clamp_index.
  pose proof (len_nonneg l1). pose proof (len_nonneg l2).
  rewrite len_app.
  destruct (Z.ltb_spec (len l1) 0); [lia|].
  rewrite Z.min_l by lia. unfold len. rewrite Nat2Z.id.
  rewrite firstn_app, firstn_all, Nat.sub_diag. simpl. apply app_nil_r.
Qed.

Lemma slice_from_app {A} (l1 l2 : list A) : slice_from (len l1) (l1 ++ l2) = l2.
Proof.
  unfold slice_from, clamp_index.
  pose proof (len_nonneg l1). pose proof (len_nonneg l2).
  rewrite len_app.
  destruct (Z.ltb_spec (len l1) 0); [lia|].
  rewrite Z.min_l by lia. unfold len. rewrite Nat2Z.id.
  rewrite skipn_app, skipn_all, Nat.sub_diag. reflexivity.
Qed.

Lemma slice_to_length {A} (i : Z) (l : list A) : len (slice_to i l) <= len l.
Proof.
  unfold slice_to, len. rewrite length_firstn. lia.
Qed.

Lemma byte_eqb_refl (b : byte) : Byte.eqb b b = true.
Proof. now apply byte_dec_lb. Qed.

Lemma rfind_range (l : bytes) (b : byte) : -1 <= rfind l b < len l.
Proof.
  induction l as [|x t IH]; simpl rfind.
  - unfold len. simpl. lia.
  - rewrite len_cons.
    destruct (Z.eqb_spec (rfind t b) (-1)); [destruct (Byte.eqb x b)|]; lia.
Qed.

Lemma rfind_absent (l : bytes) (b : byte) : rfind l b = -1 -> ~ In b l.
Proof.
  induction l as [|x t IH]; simpl rfind; intros H [].
  - destruct (Z.eqb_spec (rfind t b) (-1)) as [E|E].
    + subst x. rewrite byte_eqb_refl in H. discriminate.
    + pose proof (rfind_range t b). lia.
  - destruct (Z.eqb_spec (rfind t b) (-1)) as [E|E].
    + now apply IH.
    + pose proof (rfind_range t b). lia.
Qed.

Lemma rfind_present (l : bytes) (b : byte) :
  rfind l b <> -1 ->
  exists pre suf, l = pre ++ b :: suf /\ len pre = rfind l b /\ ~ In b suf.
Proof.
  induction l as [|x t IH]; simpl rfind; intros H; [congruence|].
  destruct (Z.eqb_spec (rfind t b) (-1)) as [E|E].
  - destruct (Byte.eqb x b) eqn:Ex; [|congruence].
    apply byte_dec_bl in Ex. subst x.
    exists [], t. repeat split. now apply rfind_absent.
  - destruct (IH E) as (pre & suf & -> & Hl & Hs).
    exists (x :: pre), suf. repeat split; [|assumption].
    rewrite len_cons. lia.
Qed.

Lemma rfind_last_occurrence (pre suf : bytes) (b : byte) :
  ~ In b suf -> rfind (pre ++ b :: suf) b = len pre.
Proof.
  intros Hs.
  assert (Hsuf : rfind suf b = -1).
  { induction suf as [|x t IH]; [reflexivity|]. simpl.
    rewrite IH by (intros ?; apply Hs; now right).
    simpl. destruct (Byte.eqb x b) eqn:E; [|reflexivity].
    apply byte_dec_bl in E. subst. exfalso. apply Hs. now left. }
  induction pre as [|x t IH].
  - simpl. rewrite Hsuf. simpl. now rewrite byte_eqb_refl.
  - simpl app. simpl rfind. rewrite IH, len_cons.
    pose proof (len_nonneg t).
    destruct (Z.eqb_spec (len t) (-1)); lia.
Qed.

(** ** Properties of the decoder *)

Lemma decode_unfold (bs : bytes) :
  decode bs =
  match bs with
  | [] => Some []
  | _ :: _ =>
      match decode_one bs with
      | Some (c, rest) => push c (decode rest)
      | None => None
      end
  end.
Proof.
  destruct bs as [|b0 r0]; [reflexivity|].
  cbn [decode decode_one].
  split_lead b0 r0; try reflexivity.
  - destruct (is_cont b1); reflexivity.
  - destruct (between _ _ b1 && is_cont b2); reflexivity.
  - destruct (between _ _ b1 && is_cont b2 && is_cont b3); reflexivity.
Qed.

Lemma newline_not_cont : is_cont newline = false.
Proof. reflexivity. Qed.

Lemma byte_val_newline (b : byte) : byte_val b = LF -> b = newline.
Proof.
  intros H. destruct b; try reflexivity; vm_compute in H; discriminate.
Qed.

Lemma between_spec (lo hi : Z) (b : byte) :
  between lo hi b = true <-> lo <= byte_val b <= hi.
Proof. unfold between. rewrite andb_true_iff, !Z.leb_le. tauto. Qed.

(** The first character takes a non-empty prefix, and it is a line feed
    only when that prefix is the byte [0x0A]. *)
Lemma decode_one_prefix (bs : bytes) (c : Z) (rest : bytes) :
  decode_one bs = Some (c, rest) ->
  exists pre, bs = pre ++ rest /\ pre <> [] /\ (c = LF -> pre = [newline]).
Proof.
  destruct bs as [|b0 r0]; [discriminate|].
  cbn [decode_one]. unfold is_cont, LF.
  split_lead b0 r0; try discriminate.
  - intros [= <- <-]. exists [b0]. repeat split; [discriminate|].
    intros E. now rewrite (byte_val_newline _ E).
  - destruct (between 128 191 b1) eqn:E1; [|discriminate].
    intros [= <- <-]. exists [b0; b1]. repeat split; [discriminate|].
    apply between_spec in Heqb0, E1. unfold cp2. lia.
  - destruct (between _ _ b1) eqn:E1; [|discriminate].
    destruct (between 128 191 b2) eqn:E2; [|discriminate].
    intros [= <- <-]. exists [b0; b1; b2]. repeat split; [discriminate|].
    apply between_spec in Heqb1, E1, E2. unfold cp3.
    unfold second_lo3, second_hi3 in E1.
    destruct (byte_val b0 =? 224) eqn:?, (byte_val b0 =? 237) eqn:?; lia.
  - destruct (between _ _ b1) eqn:E1; [|discriminate].
    destruct (between 128 191 b2) eqn:E2; [|discriminate].
    destruct (between 128 191 b3) eqn:E3; [|discriminate].
    intros [= <- <-]. exists [b0; b1; b2; b3].
    repeat split; [discriminate|].
    apply between_spec in Heqb2, E1, E2, E3. unfold cp4.
    unfold second_lo4, second_hi4 in E1.
    destruct (byte_val b0 =? 240) eqn:?, (byte_val b0 =? 244) eqn:?; lia.
Qed.

Lemma decode_one_shorter (bs : bytes) (c : Z) (rest : bytes) :
  decode_one bs = Some (c, rest) -> (length rest < length bs)%nat.
Proof.
  intros H. destruct (decode_one_prefix _ _ _ H) as (pre & -> & Hne & _).
  rewrite length_app. destruct pre; [congruence|]. simpl. lia.
Qed.

Lemma newline_not_second3 (b : byte) (hi : Z) :
  between (second_lo3 b) hi newline = false.
Proof. unfold second_lo3. now destruct (byte_val b =? 224). Qed.

Lemma newline_not_second4 (b : byte) (hi : Z) :
  between (second_lo4 b) hi newline = false.
Proof. unfold second_lo4. now destruct (byte_val b =? 240). Qed.

(** A line feed never lies inside a character: the first character of
    [xs ++ newline :: ys] is the first character of [xs]. *)
Lemma decode_one_before_newline (b : byte) (xs ys : bytes) :
  decode_one ((b :: xs) ++ newline :: ys) =
  match decode_one (b :: xs) with
  | Some (c, rest) => Some (c, rest ++ newline :: ys)
  | None => None
  end.
Proof.
  cbn [decode_one app].
  split_lead b xs; cbn [app];
    rewrite ?newline_not_cont, ?newline_not_second3, ?newline_not_second4,
            ?andb_false_r;
    try reflexivity;
    repeat (match goal with
            | |- context [if ?c then _ else _] => destruct c
            | |- context [match ?l with [] => _ | _ :: _ => _ end] =>
                destruct l
            end; cbn [andb]; try reflexivity).
Qed.

Lemma decode_one_newline (ys : bytes) :
  decode_one (newline :: ys) = Some (LF, ys).
Proof. reflexivity. Qed.

(** Decoding splits at every line feed. *)
Lemma decode_app_newline (xs ys : bytes) :
  decode (xs ++ newline :: ys) =
  match decode xs, decode ys with
  | Some u, Some v => Some (u ++ LF :: v)
  | _, _ => None
  end.
Proof.
  remember (length xs) as n eqn:Hn.
  revert xs Hn. induction n as [n IH] using lt_wf_ind. intros xs Hn.
  destruct xs as [|b r].
  - cbn [app]. rewrite decode_unfold, decode_one_newline.
    cbn [decode]. destruct (decode ys); reflexivity.
  - rewrite (decode_unfold ((b :: r) ++ newline :: ys)).
    rewrite (decode_unfold (b :: r)). cbn [app].
    change (b :: r ++ newline :: ys) with ((b :: r) ++ newline :: ys).
    rewrite decode_one_before_newline.
    destruct (decode_one (b :: r)) as [[c rest]|] eqn:E; [|reflexivity].
    rewrite (IH (length rest)) by (subst n; eauto using decode_one_shorter).
    destruct (decode rest), (decode ys); reflexivity.
Qed.

Lemma decode_nonempty (b : byte) (r : bytes) (s : str) :
  decode (b :: r) = Some s -> 0 < len s.
Proof.
  rewrite decode_unfold.
  destruct (decode_one (b :: r)) as [[c rest]|]; [|discriminate].
  destruct (decode rest); [|discriminate].
  intros [= <-]. rewrite len_cons. pose proof (len_nonneg s0). lia.
Qed.

(** A decoded line feed comes from a byte [0x0A]. *)
Lemma decode_line_feed (bs : bytes) (s : str) :
  decode bs = Some s -> In LF s -> In newline bs.
Proof.
  remember (length bs) as n eqn:Hn.
  revert bs s Hn. induction n as [n IH] using lt_wf_ind. intros bs s Hn.
  rewrite decode_unfold. destruct bs as [|b r].
  - intros [= <-] [].
  - destruct (decode_one (b :: r)) as [[c rest]|] eqn:E; [|discriminate].
    destruct (decode rest) as [s'|] eqn:Er; [|discriminate].
    intros [= <-] Hin.
    destruct (decode_one_prefix _ _ _ E) as (pre & Hb & _ & Hlf).
    rewrite Hb. apply in_or_app. destruct Hin as [Hc|Hin].
    + left. rewrite (Hlf Hc). now left.
    + right. eapply (IH (length rest)); eauto.
      subst n. eauto using decode_one_shorter.
Qed.

(** ** Spans *)

Lemma split_nl_not_nil (bs : bytes) : split_nl bs <> [].
Proof.
  destruct bs as [|b t]; simpl; [discriminate|].
  destruct (Byte.eqb b newline); [discriminate|].
  destruct (split_nl t); discriminate.
Qed.

Lemma split_nl_app_newline (xs ys : bytes) :
  split_nl (xs ++ newline :: ys) = split_nl xs ++ split_nl ys.
Proof.
  induction xs as [|b t IH]; [reflexivity|].
  simpl. destruct (Byte.eqb b newline); rewrite IH; [reflexivity|].
  pose proof (split_nl_not_nil t). destruct (split_nl t); [congruence|].
  reflexivity.
Qed.

Lemma split_nl_single (xs : bytes) : ~ In newline xs -> split_nl xs = [xs].
Proof.
  induction xs as [|b t IH]; [reflexivity|]. intros H. simpl.
  destruct (Byte.eqb b newline) eqn:E.
  - apply byte_dec_bl in E. subst. exfalso. apply H. now left.
  - rewrite IH; [reflexivity|]. intros ?. apply H. now right.
Qed.

Lemma emitted_for_nil : emitted_for [] = [].
Proof. reflexivity. Qed.

Lemma emitted_for_short (span : bytes) :
  rev (emitted_for span) = emitted_for span.
Proof.
  unfold emitted_for. destruct (decode span); [|reflexivity].
  destruct (0 <? len s); reflexivity.
Qed.

Lemma expected_output_app_newline (xs ys : bytes) :
  expected_output (xs ++ newline :: ys) =
  expected_output ys ++ expected_output xs.
Proof.
  unfold expected_output.
  now rewrite split_nl_app_newline, flat_map_app, rev_app_distr.
Qed.

Lemma expected_output_single (xs : bytes) :
  ~ In newline xs -> expected_output xs = emitted_for xs.
Proof.
  intros H. unfold expected_output. rewrite split_nl_single by assumption.
  simpl. rewrite app_nil_r. apply emitted_for_short.
Qed.

Lemma expected_output_nil : expected_output [] = [].
Proof. reflexivity. Qed.

Lemma expected_output_final_newline (F : bytes) :
  expected_output (F ++ [newline]) = expected_output F.
Proof. now rewrite expected_output_app_newline. Qed.

Lemma longest_span_nonneg (F : bytes) : 0 <= longest_span F.
Proof.
  unfold longest_span. induction (split_nl F); simpl; lia.
Qed.

Lemma fold_max_app (l1 l2 : list Z) :
  fold_right Z.max 0 (l1 ++ l2) =
  Z.max (fold_right Z.max 0 l1) (fold_right Z.max 0 l2).
Proof.
  induction l1 as [|x t IH]; simpl.
  - assert (0 <= fold_right Z.max 0 l2) by (induction l2; simpl; lia). lia.
  - rewrite IH. lia.
Qed.

Lemma longest_span_app_newline (xs ys : bytes) :
  longest_span (xs ++ newline :: ys) =
  Z.max (longest_span xs) (longest_span ys).
Proof.
  unfold longest_span.
  now rewrite split_nl_app_newline, map_app, fold_max_app.
Qed.

Lemma longest_span_cons (b : byte) (xs : bytes) :
  longest_span xs <= longest_span (b :: xs).
Proof.
  unfold longest_span. simpl.
  destruct (Byte.eqb b newline); simpl; [lia|].
  pose proof (split_nl_not_nil xs). destruct (split_nl xs); [congruence|].
  simpl. rewrite len_cons. lia.
Qed.

(** A run free of line feeds is no longer than the longest span. *)
Lemma longest_span_covers (pre run : bytes) :
  ~ In newline run -> len run <= longest_span (pre ++ run).
Proof.
  intros H. induction pre as [|b t IH].
  - simpl. unfold longest_span. rewrite split_nl_single by assumption.
    simpl. lia.
  - simpl app. pose proof (longest_span_cons b (t ++ run)). lia.
Qed.

Lemma longest_span_pending (F pre run rest : bytes) :
  F ++ [newline] = pre ++ run ++ newline :: rest ->
  ~ In newline run -> len run <= longest_span F.
Proof.
  intros E H.
  assert (L : longest_span (F ++ [newline]) = longest_span F).
  { rewrite longest_span_app_newline.
    pose proof (longest_span_nonneg F). change (longest_span []) with 0. lia. }
  rewrite <- L, E, app_assoc, longest_span_app_newline.
  pose proof (longest_span_covers pre run H). lia.
Qed.

(** ** Every scan: cursor bounds and termination *)

Lemma slice_to_len {A} (i : Z) (l : list A) :
  0 <= i <= len l -> len (slice_to i l) = i.
Proof.
  intros H. unfold slice_to, clamp_index.
  destruct (Z.ltb_spec i 0); [lia|].
  rewrite Z.min_l by lia. unfold len in *. rewrite length_firstn. lia.
Qed.

Lemma slice_split {A} (i : Z) (l : list A) : slice_to i l ++ slice_from i l = l.
Proof. unfold slice_to, slice_from. apply firstn_skipn. Qed.

Lemma seek_read_ok (f : file) (k : nat) (pos size : Z) (chunk : bytes) :
  0 <= size -> seek_read f k pos size = inl chunk ->
  chunk = firstn (Z.to_nat size) (skipn (Z.to_nat pos) (content f)).
Proof.
  intros Hs. unfold seek_read.
  destruct (fault_at f k); [discriminate|].
  destruct (Z.ltb_spec size (-1)); [lia|].
  destruct (Z.eqb_spec size (-1)); [lia|]. now intros [= <-].
Qed.

Lemma after_step (f : file) (c : Z) (n : nat) (s : config) :
  after f c (S n) s = step f c (after f c n s).
Proof.
  revert s. induction n as [|n IH]; intros s; [reflexivity|].
  change (after f c (S (S n)) s) with (after f c (S n) (step f c s)).
  now rewrite IH.
Qed.

Lemma reachable_ind (f : file) (c : Z) (P : config -> Prop) :
  P (initial f) ->
  (forall s, reachable f c s -> P s -> P (step f c s)) ->
  forall s, reachable f c s -> P s.
Proof.
  intros H0 HS s [n ->]. induction n as [|n IH]; [exact H0|].
  rewrite after_step. apply HS; [now exists n | exact IH].
Qed.

Lemma reachable_step (f : file) (c : Z) (s : config) :
  reachable f c s -> reachable f c (step f c s).
Proof. intros [n ->]. exists (S n). now rewrite after_step. Qed.

Section AnyScan.
Variable path : string.
Variable f : file.
Variable c : Z.
Hypothesis c_pos : 1 <= c.

Lemma initial_well_formed : well_formed (content f) (initial f).
Proof.
  repeat split; simpl; try discriminate.
  - apply len_nonneg.
  - lia.
Qed.

Lemma step_well_formed (s : config) :
  well_formed (content f) s -> well_formed (content f) (step f c s).
Proof.
  intros (Hpos & Hdec & Hfl). unfold step.
  destruct (at_point s) as [| | | |v|e] eqn:Hp.
  - destruct (Z.ltb_spec 0 (position s)).
    + destruct (seek_read _ _ _ _); repeat split; fields;
        try discriminate; lia.
    + repeat split; fields; try discriminate; lia.
  - pose proof (rfind_range (buffer s) newline) as Hr.
    destruct (Z.eqb_spec (rfind (buffer s) newline) (-1)).
    + repeat split; fields; try discriminate; lia.
    + repeat split; fields; try discriminate; try lia.
      apply slice_to_len. lia.
  - destruct (decode (line_bytes s)); repeat split; fields;
      try discriminate; lia.
  - pose proof (Hfl eq_refl).
    destruct (buffer s); [|destruct (decode _)];
      repeat split; fields; try discriminate; lia.
  - unfold well_formed. rewrite Hp. repeat split; try lia; discriminate.
  - unfold well_formed. rewrite Hp. repeat split; try lia; discriminate.
Qed.

Lemma reachable_well_formed (s : config) :
  reachable f c s -> well_formed (content f) s.
Proof.
  apply reachable_ind; [apply initial_well_formed|].
  intros ? _. apply step_well_formed.
Qed.

Lemma step_measure (s : config) :
  well_formed (content f) s -> ended s = false ->
  measure (step f c s) < measure s.
Proof.
  intros (Hpos & Hdec & _). unfold ended, measure, pending, step.
  destruct (at_point s) as [| | | |v|e] eqn:Hp; try discriminate; intros _.
  - destruct (Z.ltb_spec 0 (position s)); [|fields; lia].
    destruct (seek_read _ _ _ _) as [chunk|e] eqn:Hread; fields.
    + apply seek_read_ok in Hread; [|lia].
      assert (len chunk <= Z.min c (position s)).
      { subst chunk. unfold len. rewrite length_firstn. lia. }
      rewrite len_app. lia.
    + lia.
  - destruct (Z.eqb_spec (rfind (buffer s) newline) (-1)); fields; [lia|].
    rewrite slice_split. lia.
  - destruct (Hdec eq_refl) as [Hb Hi].
    pose proof (len_nonneg (line_bytes s)).
    destruct (decode (line_bytes s)); fields.
    + rewrite slice_to_len by lia. rewrite len_app. lia.
    + rewrite !len_app. lia.
  - destruct (buffer s); [|destruct (decode _)]; fields; lia.
Qed.

Lemma measure_running (s : config) :
  well_formed (content f) s -> ended s = false -> 1 <= measure s.
Proof.
  intros (Hpos & _). unfold ended, measure.
  pose proof (len_nonneg (pending s)).
  destruct (at_point s); fields; try discriminate; lia.
Qed.

Lemma conclude_ended (s : config) :
  conclude path s = None <-> ended s = false.
Proof.
  unfold conclude, ended. destruct (at_point s); split; congruence.
Qed.

(** A fuel at least the measure gives a result. *)
Lemma run_enough (fuel : nat) (s : config) :
  well_formed (content f) s -> measure s <= Z.of_nat fuel ->
  exists o, run path f c fuel s = Some o.
Proof.
  revert s. induction fuel as [|fuel IH]; intros s Hwf Hm; cbn [run];
    destruct (conclude path s) as [o|] eqn:Hc; eauto;
    apply conclude_ended in Hc.
  - pose proof (measure_running s Hwf Hc). lia.
  - apply IH; [now apply step_well_formed|].
    pose proof (step_measure s Hwf Hc). lia.
Qed.

(** The result of [run] is read off a configuration the scan reaches. *)
Lemma run_reaches (fuel : nat) (s : config) (o : outcome) :
  run path f c fuel s = Some o ->
  exists n, conclude path (after f c n s) = Some o.
Proof.
  revert s. induction fuel as [|fuel IH]; intros s; cbn [run];
    destruct (conclude path s) as [o'|] eqn:Hc.
  - intros [= <-]. now exists O.
  - discriminate.
  - intros [= <-]. now exists O.
  - intros H. destruct (IH _ H) as [n Hn]. now exists (S n).
Qed.

Lemma run_terminates :
  exists o, run path f c (enough_fuel f) (initial f) = Some o.
Proof.
  apply run_enough; [apply initial_well_formed|].
  unfold measure, enough_fuel, pending, initial. fields.
  pose proof (len_nonneg (content f)). change (len (@nil byte)) with 0.
  rewrite Z2Nat.id; lia.
Qed.

(** More fuel never changes a result. *)
Lemma run_more_fuel (fuel extra : nat) (s : config) (o : outcome) :
  run path f c fuel s = Some o -> run path f c (fuel + extra) s = Some o.
Proof.
  revert s. induction fuel as [|fuel IH]; intros s; cbn [run Nat.add].
  - destruct (conclude path s) eqn:Hc; [|discriminate].
    intros H. destruct extra; cbn [run]; now rewrite Hc.
  - destruct (conclude path s) eqn:Hc; auto.
Qed.

(** The method returns, from a configuration its scan reaches. *)
Lemma method_returns :
  exists o s, reverse_lines_chunked path (Present f) c = Some o /\
              reachable f c s /\ conclude path s = Some o.
Proof.
  destruct run_terminates as [o Ho]. destruct (run_reaches _ _ _ Ho) as [n Hn].
  exists o, (after f c n (initial f)). repeat split; auto. now exists n.
Qed.
End AnyScan.

(** ** Scans of UTF-8-valid files read without failure *)

Lemma decode_app_newline_some (xs ys : bytes) :
  decode (xs ++ newline :: ys) <> None ->
  decode xs <> None /\ decode ys <> None.
Proof.
  rewrite decode_app_newline.
  destruct (decode xs), (decode ys); split; congruence.
Qed.

Lemma decode_final_newline (F : bytes) :
  decode F <> None -> decode (F ++ [newline]) <> None.
Proof.
  rewrite decode_app_newline. cbn [decode].
  destruct (decode F); congruence.
Qed.

Lemma prefix_of_terminated {A} (F pre tail : list A) (x y : A) :
  F ++ [x] = pre ++ tail ++ [y] -> F = pre ++ tail.
Proof.
  rewrite app_assoc. intros H. now apply app_inj_tail in H.
Qed.

Lemma chunk_before_cursor (pre tail : bytes) (p r : Z) :
  0 <= p -> 0 <= r -> p + r = len pre ->
  firstn (Z.to_nat r) (skipn (Z.to_nat p) (pre ++ tail))
  = skipn (Z.to_nat p) pre.
Proof.
  intros Hp Hr E. unfold len in E.
  rewrite skipn_app.
  replace (Z.to_nat p - length pre)%nat with 0%nat by lia.
  cbn [skipn]. rewrite firstn_app.
  replace (Z.to_nat r - length (skipn (Z.to_nat p) pre))%nat with 0%nat
    by (rewrite length_skipn; lia).
  cbn [firstn]. rewrite app_nil_r. apply firstn_all2.
  rewrite length_skipn. lia.
Qed.

Lemma cons_as_tail {A} (x : A) (l : list A) :
  exists l' y, x :: l = l' ++ [y].
Proof.
  revert x. induction l as [|a t IH]; intros x.
  - now exists [], x.
  - destruct (IH a) as (l' & y & E). exists (x :: l'), y.
    now rewrite E.
Qed.

Section ValidScan.
Variable F : bytes.
Variable c : Z.
Hypothesis c_pos : 1 <= c.
Hypothesis F_valid : decode F <> None.

Lemma initial_scan_inv : scan_inv F c (initial (sound F)).
Proof.
  unfold scan_inv, pending, initial. fields.
  pose proof (longest_span_nonneg F).
  change (len (@nil byte)) with 0.
  split; [lia|]. split; [reflexivity|].
  exists F, []. repeat split; auto.
Qed.

Lemma first_span_decodes (mid rest : bytes) :
  F ++ [newline] = mid ++ newline :: rest -> decode mid <> None.
Proof.
  intros E. pose proof (decode_final_newline F F_valid) as H.
  rewrite E in H. now apply decode_app_newline_some in H.
Qed.

Lemma span_decodes (pre mid rest : bytes) :
  F ++ [newline] = pre ++ newline :: mid ++ newline :: rest ->
  decode mid <> None.
Proof.
  intros E. pose proof (decode_final_newline F F_valid) as H.
  rewrite E in H. apply decode_app_newline_some in H.
  destruct H as [_ H]. now apply decode_app_newline_some in H.
Qed.

Lemma step_scan_inv (s : config) :
  scan_inv F c s -> scan_inv F c (step (sound F) c s).
Proof.
  unfold scan_inv, pending, step. intros (Hbound & Hprint & Hinv).
  destruct (at_point s) as [| | | |v|e] eqn:Hp.
  - (* while position > 0 *)
    destruct Hinv as (pre & rest & HF & Hlen & Hlines & Hnl).
    pose proof (len_nonneg pre).
    destruct (Z.ltb_spec 0 (position s)) as [Hpos|Hpos].
    + set (r := Z.min c (position s)).
      destruct (seek_read _ _ _ _) as [chunk|e] eqn:Hread.
      * apply seek_read_ok in Hread; [|lia]. cbn [sound content] in Hread.
        destruct (cons_as_tail newline rest) as (tl & y & Etl).
        rewrite Etl, app_assoc in HF.
        pose proof HF as HF'. apply prefix_of_terminated in HF'.
        rewrite HF', <- app_assoc, chunk_before_cursor in Hread by lia.
        rewrite <- app_assoc, <- Etl in HF.
        fields.
        assert (Hc : len chunk = r).
        { subst chunk. unfold len in *. rewrite length_skipn. lia. }
        split.
        { rewrite len_app.
          pose proof (longest_span_pending _ _ _ _ HF Hnl). lia. }
        split; [assumption|].
        exists (firstn (Z.to_nat (position s - r)) pre), rest.
        repeat split; auto.
        -- rewrite HF, Hread, <- app_assoc, (app_assoc (firstn _ pre)).
           now rewrite firstn_skipn.
        -- unfold len in *. rewrite length_firstn. lia.
      * exfalso. subst r. unfold seek_read, fault_at in Hread.
        cbn [sound fault] in Hread.
        destruct (Z.ltb_spec (Z.min c (position s)) (-1)); [lia|].
        destruct (Z.eqb_spec (Z.min c (position s)) (-1)); [lia|].
        discriminate.
    + fields. split; [assumption|]. split; [assumption|].
      exists pre, rest. repeat split; auto. lia.
  - (* while True: rfind *)
    destruct Hinv as (pre & rest & HF & Hlen & Hlines & _).
    destruct (Z.eqb_spec (rfind (buffer s) newline) (-1)) as [E|E]; fields.
    + split; [assumption|]. split; [assumption|].
      exists pre, rest. repeat split; auto. now apply rfind_absent.
    + destruct (rfind_present _ _ E) as (b' & suf & Hb & Hi & Hsuf).
      rewrite <- Hi.
      assert (E1 : len b' + 1 = len (b' ++ [newline]))
        by (rewrite len_app; reflexivity).
      assert (E2 : buffer s = (b' ++ [newline]) ++ suf)
        by (rewrite <- app_assoc; exact Hb).
      rewrite !slice_split, E1.
      assert (Hto : slice_to (len (b' ++ [newline])) (buffer s)
                    = b' ++ [newline])
        by (rewrite E2 at 1; apply slice_to_app).
      assert (Hfrom : slice_from (len (b' ++ [newline])) (buffer s) = suf)
        by (rewrite E2 at 1; apply slice_from_app).
      rewrite Hto, Hfrom.
      split; [assumption|]. split; [assumption|].
      exists pre, rest. repeat split; auto.
      exists b'. repeat split; auto.
  - (* decode of the candidate *)
    destruct Hinv as (pre & rest & HF & Hlen & Hlines & b' & Hb & Hi & Hlb).
    assert (Hd : decode (line_bytes s) <> None).
    { apply (span_decodes (pre ++ b') (line_bytes s) rest).
      rewrite HF, Hb, <- !app_assoc. reflexivity. }
    destruct (decode (line_bytes s)) as [line|] eqn:Eline; [|congruence].
    fields. rewrite Hi, Hb, slice_to_app.
    split.
    { rewrite Hb, !len_app in Hbound. pose proof (len_nonneg (line_bytes s)).
      change (len [newline]) with 1 in Hbound. lia. }
    split; [assumption|].
    exists pre, (line_bytes s ++ newline :: rest). repeat split.
    + rewrite HF, Hb, <- !app_assoc. reflexivity.
    + assumption.
    + rewrite expected_output_app_newline, <- Hlines.
      rewrite expected_output_single by assumption.
      unfold emitted_for. rewrite Eline.
      destruct (0 <? len line); [reflexivity|now rewrite app_nil_r].
  - (* remaining bytes *)
    destruct Hinv as (pre & rest & HF & Hlen & Hlines & Hpos & Hnl).
    assert (pre = []) by (destruct pre; [reflexivity|
      rewrite len_cons in Hlen; pose proof (len_nonneg pre); lia]).
    subst pre. cbn [app] in HF.
    assert (Hout : expected_output F
                   = lines s ++ emitted_for (buffer s)).
    { rewrite <- expected_output_final_newline, HF.
      rewrite expected_output_app_newline, <- Hlines.
      now rewrite expected_output_single. }
    assert (Hd : decode (buffer s) <> None)
      by (apply (first_span_decodes (buffer s) rest); exact HF).
    destruct (buffer s) as [|b t] eqn:Hbuf; fields.
    + split; [assumption|]. split; [assumption|].
      rewrite Hout, emitted_for_nil, app_nil_r. auto.
    + destruct (decode (b :: t)) as [line|] eqn:Eline; [|congruence].
      fields. split; [assumption|]. split; [assumption|].
      rewrite Hout. unfold emitted_for. rewrite Eline.
      pose proof (decode_nonempty _ _ _ Eline) as Hl.
      apply Z.ltb_lt in Hl. rewrite Hl. auto.
  - rewrite Hp. auto.
  - contradiction.
Qed.

Lemma reachable_scan_inv (s : config) :
  reachable (sound F) c s -> scan_inv F c s.
Proof.
  apply reachable_ind; [apply initial_scan_inv|].
  intros ? _. apply step_scan_inv.
Qed.

(** The method returns, and what it returns is the expected output. *)
Lemma valid_scan_result (path : string) :
  reverse_lines_chunked path (Present (sound F)) c
  = Some {| result := expected_output F;
            self_lines := expected_output F;
            stdout := [] |}.
Proof.
  destruct (method_returns path (sound F) c c_pos) as (o & s & Ho & Hs & Hc).
  rewrite Ho. apply reachable_scan_inv in Hs.
  destruct Hs as (_ & Hprint & Hinv). unfold conclude in Hc.
  destruct (at_point s); try discriminate; [|contradiction].
  destruct Hinv as [-> Hl]. rewrite Hl, Hprint in Hc. now rewrite <- Hc.
Qed.

Lemma valid_reversed_lines : reversed_lines F c = Some (expected_output F).
Proof. unfold reversed_lines. now rewrite valid_scan_result. Qed.
End ValidScan.

Example forward_lines_blank :
  forward_lines [x61; x0a; x0a; x62; x0d; x0a]
  = [[97; 10]; [10]; [98; 10]].
Proof. reflexivity. Qed.

Lemma utf8_valid_decode (F : bytes) : utf8_valid F = true -> decode F <> None.
Proof. unfold utf8_valid. destruct (decode F); congruence. Qed.

Lemma utf8_valid_app_newline (A B : bytes) :
  utf8_valid A = true -> utf8_valid B = true ->
  utf8_valid (A ++ newline :: B) = true.
Proof.
  unfold utf8_valid. rewrite decode_app_newline.
  destruct (decode A), (decode B); congruence.
Qed.

Lemma valid_output (F : bytes) (c : Z) :
  1 <= c -> utf8_valid F = true ->
  reversed_lines F c = Some (expected_output F).
Proof.
  intros Hc Hv. apply valid_reversed_lines; [assumption|].
  now apply utf8_valid_decode.
Qed.

(** On a UTF-8-valid file the output does not depend on the chunk size. *)
Lemma valid_chunk_independent (F : bytes) (c1 c2 : Z) :
  1 <= c1 -> 1 <= c2 -> utf8_valid F = true ->
  reversed_lines F c1 = reversed_lines F c2.
Proof. intros. now rewrite !valid_output. Qed.

(** On a UTF-8-valid file the pending bytes are the file bytes from the
    cursor on, in file order. *)
Lemma valid_pending_interval (F : bytes) (c : Z) (s : config) :
  1 <= c -> utf8_valid F = true -> reachable (sound F) c s ->
  ended s = false ->
  pending s = interval F (position s) (position s + len (pending s)).
Proof.
  intros Hc Hv Hs He.
  apply reachable_scan_inv in Hs; auto using utf8_valid_decode.
  destruct Hs as (_ & _ & Hinv). unfold ended in He.
  assert (H : exists pre rest,
             F ++ [newline] = pre ++ pending s ++ newline :: rest /\
             len pre = position s).
  { destruct (at_point s); try discriminate;
      destruct Hinv as (pre & rest & HF & Hl & _); eauto. }
  destruct H as (pre & rest & HF & Hl).
  destruct (cons_as_tail newline rest) as (tl & y & Etl).
  rewrite Etl, app_assoc in HF. apply prefix_of_terminated in HF.
  unfold interval. rewrite HF, <- Hl, <- app_assoc.
  replace (len pre + len (pending s) - len pre) with (len (pending s)) by lia.
  unfold len. rewrite !Nat2Z.id, skipn_app, skipn_all, Nat.sub_diag.
  cbn [skipn app]. rewrite firstn_app, firstn_all, Nat.sub_diag.
  cbn [firstn]. now rewrite app_nil_r.
Qed.

Lemma rstrip_incl (s : str) (ch x : Z) : In x (rstrip s ch) -> In x s.
Proof.
  induction s as [|a t IH]; cbn [rstrip]; [tauto|].
  destruct (rstrip t ch) as [|b r] eqn:E.
  - destruct (a =? ch); [intros []|]. intros [<-|[]]. now left.
  - intros [<-|H]; [now left|]. right. apply IH. exact H.
Qed.

Lemma split_nl_no_newline (F span : bytes) :
  In span (split_nl F) -> ~ In newline span.
Proof.
  revert span. induction F as [|b t IH]; intros span; cbn [split_nl].
  - intros [<-|[]] [].
  - destruct (Byte.eqb b newline) eqn:E.
    + intros [<-|H]; [intros []|now apply IH].
    + pose proof (split_nl_not_nil t) as Hne.
      destruct (split_nl t) as [|s0 r]; [congruence|].
      intros [<-|H].
      * intros [->|Hin]; [now rewrite byte_eqb_refl in E|].
        apply (IH s0); [now left|assumption].
      * apply IH. now right.
Qed.

(** What the output of a UTF-8-valid file is made of. *)
Lemma expected_output_elements (F : bytes) (e : str) :
  In e (expected_output F) ->
  exists span line,
    In span (split_nl F) /\ decode span = Some line /\ 0 < len line /\
    e = normalize line /\ ~ In LF line.
Proof.
  unfold expected_output. rewrite <- in_rev, in_flat_map.
  intros (span & Hspan & He). exists span. unfold emitted_for in He.
  destruct (decode span) as [line|] eqn:Hd; [|destruct He].
  destruct (Z.ltb_spec 0 (len line)); [|destruct He].
  destruct He as [<-|[]]. exists line. repeat split; auto.
  intros Hlf. apply (split_nl_no_newline F span Hspan).
  now apply (decode_line_feed span line).
Qed.

(** Every transition appends what [appended] says, and nothing else. *)
Lemma step_appends (f : file) (c : Z) (s : config) :
  lines (step f c s) = lines s ++ appended s.
Proof.
  unfold step, appended, normalize.
  destruct (at_point s) as [| | | |v|e].
  - destruct (0 <? position s); [destruct (seek_read _ _ _ _)|];
      fields; now rewrite app_nil_r.
  - destruct (rfind (buffer s) newline =? -1); fields; now rewrite app_nil_r.
  - destruct (decode (line_bytes s)) as [line|]; fields;
      [destruct (0 <? len line)|]; now rewrite ?app_nil_r.
  - destruct (buffer s) as [|b t]; [|destruct (decode (b :: t))]; fields;
      now rewrite ?app_nil_r.
  - now rewrite app_nil_r.
  - now rewrite app_nil_r.
Qed.

(** [self.lines] is, in order, what the transitions so far appended. *)
Lemma lines_after (f : file) (c : Z) (n : nat) :
  lines (after f c n (initial f))
  = flat_map appended
      (map (fun k => after f c k (initial f)) (seq 0 n)).
Proof.
  induction n as [|n IH]; [reflexivity|].
  rewrite after_step, step_appends, IH, seq_S, map_app, flat_map_app.
  cbn [map flat_map Nat.add]. now rewrite app_nil_r.
Qed.

(** An appended element is the text of the candidate, normalized. *)
Lemma appended_element (s : config) (e : str) :
  In e (appended s) ->
  exists bs line,
    candidate s = Some bs /\ decode bs = Some line /\
    appended s = [e] /\ e = rstrip line CR ++ [LF].
Proof.
  unfold appended, candidate. destruct (at_point s); try (intros []).
  - destruct (decode (line_bytes s)) as [line|] eqn:Hd; [|intros []].
    destruct (0 <? len line); [|intros []]. intros [<-|[]].
    now exists (line_bytes s), line.
  - destruct (buffer s) as [|b t]; [intros []|].
    destruct (decode (b :: t)) as [line|] eqn:Hd; [|intros []].
    intros [<-|[]]. now exists (b :: t), line.
Qed.

(** A returned list is [self.lines]. *)
Lemma returned_is_lines (f : file) (c : Z) (s : config) :
  reachable f c s -> forall v, at_point s = Returned v -> v = lines s.
Proof.
  revert s.
  apply (reachable_ind f c
           (fun s => forall v, at_point s = Returned v -> v = lines s));
    [discriminate|].
  intros s _ Hr. unfold step.
  destruct (at_point s) as [| | | |v|e] eqn:Hp.
  - destruct (0 <? position s); [destruct (seek_read _ _ _ _)|];
      fields; discriminate.
  - destruct (rfind (buffer s) newline =? -1); fields; discriminate.
  - destruct (decode (line_bytes s)); fields; discriminate.
  - destruct (buffer s) as [|b t]; [|destruct (decode (b :: t))]; fields;
      congruence.
  - rewrite Hp. exact Hr.
  - rewrite Hp. discriminate.
Qed.

Lemma utf8_valid_cons_newline (B : bytes) :
  utf8_valid B = true -> utf8_valid (newline :: B) = true.
Proof. intros H. now apply (utf8_valid_app_newline [] B). Qed.

Lemma utf8_valid_cr_newline (B : bytes) :
  utf8_valid B = true -> utf8_valid (x0d :: newline :: B) = true.
Proof. intros H. now apply (utf8_valid_app_newline [x0d] B). Qed.

Lemma expected_output_cons_newline (B : bytes) :
  expected_output (newline :: B) = expected_output B.
Proof.
  change (newline :: B) with ([] ++ newline :: B).
  now rewrite expected_output_app_newline, expected_output_nil, app_nil_r.
Qed.

Lemma expected_output_cr_newline (B : bytes) :
  expected_output (x0d :: newline :: B) = expected_output B ++ [[LF]].
Proof.
  change (x0d :: newline :: B) with ([x0d] ++ newline :: B).
  now rewrite expected_output_app_newline.
Qed.

(** ** The round trip (C1) *)

(** C1, as stated, fails: for the UTF-8-valid file ["a\n\nb\n"] and chunk
    size 3 the returned list reversed and concatenated is ["a\nb\n"], while
    the forward lines of the file, terminators normalized, concatenate to
    ["a\n\nb\n"]: the blank line is missing. *)
Lemma round_trip_loses_blank_line :
  utf8_valid [x61; x0a; x0a; x62; x0a] = true /\
  reversed_lines [x61; x0a; x0a; x62; x0a] 3 = Some [[98; 10]; [97; 10]] /\
  concat (rev [[98; 10]; [97; 10]]) = [97; 10; 98; 10] /\
  concat (forward_lines [x61; x0a; x0a; x62; x0a]) = [97; 10; 10; 98; 10] /\
  concat (rev [[98; 10]; [97; 10]])
  <> concat (forward_lines [x61; x0a; x0a; x62; x0a]).
Proof. repeat split; try reflexivity. discriminate. Qed.

(** C1, amended: for every UTF-8-valid file and every chunk size at least 1
    the method returns, and the returned list reversed is the forward
    sequence of the file's non-empty spans between line feeds, each decoded,
    freed of all its trailing carriage returns and closed by one line feed;
    spans of zero bytes contribute nothing.  So the list holds the
    non-empty lines in strict reverse physical order. *)
Theorem reverse_lines_round_trip (F : bytes) (c : Z) :
  utf8_valid F = true -> 1 <= c ->
  exists out,
    reversed_lines F c = Some out /\
    rev out = flat_map emitted_for (split_nl F) /\
    concat (rev out) = concat (flat_map emitted_for (split_nl F)).
Proof.
  intros Hv Hc. exists (expected_output F).
  rewrite valid_output by assumption.
  unfold expected_output. rewrite rev_involutive. auto.
Qed.

Lemma reverse_lines_round_trip_witness :
  exists out,
    reversed_lines [x61; x0d; x0a; xc3; xa9; x0a; x0a; x62] 2 = Some out /\
    rev out
    = flat_map emitted_for (split_nl [x61; x0d; x0a; xc3; xa9; x0a; x0a; x62])
    /\ concat (rev out)
       = concat (flat_map emitted_for
                   (split_nl [x61; x0d; x0a; xc3; xa9; x0a; x0a; x62])).
Proof.
  apply (reverse_lines_round_trip
           [x61; x0d; x0a; xc3; xa9; x0a; x0a; x62] 2); [reflexivity|lia].
Defined.

(** ** Empty spans (C2, C10) *)

(** C2, as stated, fails: in ["x\n\ny"] an empty span lies between two line
    feeds, none of them at the end of the file, and with chunk size 2 the
    returned list is [["y\n"; "x\n"]], without any empty line. *)
Lemma blank_line_not_emitted :
  utf8_valid [x78; x0a; x0a; x79] = true /\
  reversed_lines [x78; x0a; x0a; x79] 2 = Some [[121; 10]; [120; 10]] /\
  ~ In [LF] [[121; 10]; [120; 10]].
Proof.
  repeat split; try reflexivity.
  intros [H|[H|[]]]; discriminate.
Qed.

(** C2, amended: for every UTF-8-valid file an empty byte span between two
    line feeds is left out of the output wherever it lies, just like the one
    after a final terminator: the output is that of the file with one of the
    two line feeds removed. *)
Theorem empty_span_left_out (A B : bytes) (c : Z) :
  utf8_valid A = true -> utf8_valid B = true -> 1 <= c ->
  reversed_lines (A ++ newline :: newline :: B) c
  = reversed_lines (A ++ newline :: B) c /\
  reversed_lines (A ++ newline :: newline :: B) c
  = Some (expected_output B ++ expected_output A).
Proof.
  intros HA HB Hc.
  rewrite !valid_output;
    auto using utf8_valid_app_newline, utf8_valid_cons_newline.
  now rewrite !expected_output_app_newline, expected_output_cons_newline.
Qed.

Lemma empty_span_left_out_witness :
  reversed_lines ([x61] ++ newline :: newline :: [x62]) 1
  = reversed_lines ([x61] ++ newline :: [x62]) 1 /\
  reversed_lines ([x61] ++ newline :: newline :: [x62]) 1
  = Some (expected_output [x62] ++ expected_output [x61]).
Proof.
  apply (empty_span_left_out [x61] [x62] 1); [reflexivity|reflexivity|lia].
Defined.

(** C10: a candidate that is the single byte [0x0D] is appended as the line
    ["\n"], a candidate of zero bytes is not appended at all; so, in a
    UTF-8-valid file, an empty line ended by [\r\n] shows up as ["\n"] in the
    output and an empty line ended by [\n] alone does not show up. *)
Theorem empty_line_by_terminator (A B : bytes) (c : Z) :
  utf8_valid A = true -> utf8_valid B = true -> 1 <= c ->
  (forall f s, at_point s = AtDecode ->
     (line_bytes s = [x0d] -> lines (step f c s) = lines s ++ [[LF]]) /\
     (line_bytes s = [] -> lines (step f c s) = lines s)) /\
  exists oa ob,
    reversed_lines A c = Some oa /\ reversed_lines B c = Some ob /\
    reversed_lines (A ++ newline :: x0d :: newline :: B) c
    = Some (ob ++ [[LF]] ++ oa) /\
    reversed_lines (A ++ newline :: newline :: B) c = Some (ob ++ oa) /\
    reversed_lines (x0d :: newline :: B) c = Some (ob ++ [[LF]]) /\
    reversed_lines (newline :: B) c = Some ob.
Proof.
  intros HA HB Hc. split.
  - intros f s Hp. unfold step. rewrite Hp.
    split; intros ->; reflexivity.
  - exists (expected_output A), (expected_output B).
    rewrite !valid_output;
      auto using utf8_valid_app_newline, utf8_valid_cons_newline,
                 utf8_valid_cr_newline.
    rewrite !expected_output_app_newline, expected_output_cr_newline,
            !expected_output_cons_newline.
    repeat split. now rewrite <- app_assoc.
Qed.

Lemma empty_line_by_terminator_witness :
  (forall f s, at_point s = AtDecode ->
     (line_bytes s = [x0d] -> lines (step f 2 s) = lines s ++ [[LF]]) /\
     (line_bytes s = [] -> lines (step f 2 s) = lines s)) /\
  exists oa ob,
    reversed_lines [x61] 2 = Some oa /\ reversed_lines [x62] 2 = Some ob /\
    reversed_lines ([x61] ++ newline :: x0d :: newline :: [x62]) 2
    = Some (ob ++ [[LF]] ++ oa) /\
    reversed_lines ([x61] ++ newline :: newline :: [x62]) 2
    = Some (ob ++ oa) /\
    reversed_lines (x0d :: newline :: [x62]) 2 = Some (ob ++ [[LF]]) /\
    reversed_lines (newline :: [x62]) 2 = Some ob.
Proof.
  apply (empty_line_by_terminator [x61] [x62] 2);
    [reflexivity|reflexivity|lia].
Defined.

(** ** The re-merge after a failed decode (C3, C4) *)

(** C3: on the file ["a\nb\n" + 0xFF], whose last byte is no UTF-8, the
    returned list depends on the chunk size: chunk size 4 gives [["b\n"]],
    chunk sizes 5 and 1 give the empty list.  The candidate [0xFF] fails to
    decode and is put back in front of the bytes that precede it in the
    file, so what the next rounds find depends on where the chunks fall. *)
Theorem chunk_size_changes_output :
  reversed_lines [x61; x0a; x62; x0a; xff] 4 = Some [[98; 10]] /\
  reversed_lines [x61; x0a; x62; x0a; xff] 5 = Some [] /\
  reversed_lines [x61; x0a; x62; x0a; xff] 1 = Some [].
Proof. repeat split; reflexivity. Qed.

(** C4: on the file ["a\n" + 0xFF] with chunk size 3, the third transition
    is the re-merge of the rejected candidate [0xFF]; after it the cursor is
    at 0 and the buffer holds [0xFF; 'a'; '\n'], the file bytes in another
    order, which is no interval of the file at all. *)
Theorem remerge_reorders_buffer :
  let F := [x61; x0a; xff] in
  let s := after (sound F) 3 3 (initial (sound F)) in
  reachable (sound F) 3 s /\
  at_point s = AtWhilePosition /\ position s = 0 /\
  buffer s = [xff; x61; x0a] /\
  forall lo hi, buffer s <> interval F lo hi.
Proof.
  cbv zeta. repeat split; try reflexivity; [now exists 3%nat|].
  intros lo hi. change (after _ _ _ _) with
    {| at_point := AtWhilePosition; position := 0;
       buffer := [xff; x61; x0a]; lines := []; nl_index := 1;
       line_bytes := [xff]; fetches := 1; printed := [] |}.
  fields. unfold interval.
  destruct (Z.to_nat lo) as [|[|[|[|?]]]];
    destruct (Z.to_nat (hi - lo)) as [|[|[|[|?]]]]; discriminate.
Qed.

(** ** Normalization of the emitted lines (C5) *)

(** C5, as stated, fails: the file ["a\r\r\n"] holds the text ["a\r\r"]
    before its terminator; the method returns [["a\n"]], both carriage
    returns gone, where stripping a single one gives ["a\r\n"]. *)
Lemma more_than_one_cr_stripped :
  exists line,
    decode [x61; x0d; x0d] = Some line /\
    reversed_lines [x61; x0d; x0d; x0a] 8 = Some [normalize line] /\
    normalize line = [97; 10] /\
    normalize_one_cr line = [97; 13; 10] /\
    normalize line <> normalize_one_cr line.
Proof.
  exists [97; 13; 13]. repeat split; try reflexivity. discriminate.
Qed.

(** C5, amended: every transition appends to [self.lines] the decoded text of
    its candidate (the bytes cut off behind the last line feed of the
    buffer when they are not empty, or what is left of the buffer after the
    loop) without any of its trailing carriage returns, followed by one line
    feed, and appends nothing else; the returned list is, in order, what the
    transitions of the scan appended.  When the file is UTF-8-valid and read
    without failure every element comes from a non-empty span of the file
    between line feeds and its text holds no line feed, so the element ends
    with exactly one. *)
Theorem emitted_lines_normalized (path : string) (f : file) (c : Z) :
  1 <= c ->
  (forall s, lines (step f c s) = lines s ++ appended s) /\
  exists o n,
    reverse_lines_chunked path (Present f) c = Some o /\
    ended (after f c n (initial f)) = true /\
    (result o
     = flat_map appended (map (fun k => after f c k (initial f)) (seq 0 n))
     \/ (result o = [] /\
         exists e, at_point (after f c n (initial f)) = Raised e)) /\
    (forall e, In e (result o) ->
       exists s bs line,
         reachable f c s /\ candidate s = Some bs /\
         decode bs = Some line /\ appended s = [e] /\
         e = rstrip line CR ++ [LF]) /\
    (fault f = None -> utf8_valid (content f) = true ->
     forall e, In e (result o) ->
       exists span line,
         In span (split_nl (content f)) /\ span <> [] /\
         decode span = Some line /\ e = rstrip line CR ++ [LF] /\
         ~ In LF (rstrip line CR)).
Proof.
  intros Hc. split; [intros s; apply step_appends|].
  destruct (method_returns path f c Hc) as (o & s & Ho & Hs & Hcon).
  pose proof Hs as [n Hn]. subst s.
  exists o, n. split; [assumption|].
  assert (Hres : result o = lines (after f c n (initial f)) \/
                 (result o = [] /\
                  exists e, at_point (after f c n (initial f)) = Raised e)).
  { unfold conclude in Hcon.
    destruct (at_point (after f c n (initial f))) as [| | | |v|e] eqn:Hp;
      try discriminate;
      injection Hcon as <-; cbn [result handler]; [left|right; eauto].
    now apply (returned_is_lines f c _ Hs). }
  split; [|split; [|split]].
  - unfold ended. unfold conclude in Hcon.
    destruct (at_point (after f c n (initial f))); try discriminate;
      reflexivity.
  - destruct Hres as [->|H]; [left; apply lines_after|now right].
  - intros e He.
    assert (Hin : In e (lines (after f c n (initial f))))
      by (destruct Hres as [<-|[E _]];
          [assumption|rewrite E in He; destruct He]).
    rewrite lines_after in Hin.
    apply in_flat_map in Hin. destruct Hin as (s & Hs' & He').
    apply in_map_iff in Hs'. destruct Hs' as (k & <- & _).
    destruct (appended_element _ _ He') as (bs & line & H1 & H2 & H3 & H4).
    exists (after f c k (initial f)), bs, line.
    repeat split; auto. now exists k.
  - intros Hf Hv.
    assert (E : f = sound (content f))
      by (destruct f as [F0 fl]; cbn in *; now subst fl).
    rewrite E, (valid_scan_result (content f) c Hc
                  (utf8_valid_decode _ Hv) path) in Ho.
    injection Ho as <-. cbn [result]. intros e He.
    destruct (expected_output_elements _ _ He)
      as (span & line & Hspan & Hd & Hlen & -> & Hlf).
    exists span, line. repeat split; auto.
    + intros ->. cbn in Hd. injection Hd as <-. cbn in Hlen. lia.
    + intros Hin. apply Hlf. eapply rstrip_incl. exact Hin.
Qed.

Lemma emitted_lines_normalized_witness :
  (forall s, lines (step (sound [x61; x0d; x0d; x0a; x62]) 2 s)
             = lines s ++ appended s) /\
  exists o n,
    reverse_lines_chunked "notes.txt"
      (Present (sound [x61; x0d; x0d; x0a; x62])) 2 = Some o /\
    ended (after (sound [x61; x0d; x0d; x0a; x62]) 2 n
             (initial (sound [x61; x0d; x0d; x0a; x62]))) = true /\
    (result o
     = flat_map appended
         (map (fun k => after (sound [x61; x0d; x0d; x0a; x62]) 2 k
                          (initial (sound [x61; x0d; x0d; x0a; x62])))
              (seq 0 n))
     \/ (result o = [] /\
         exists e, at_point (after (sound [x61; x0d; x0d; x0a; x62]) 2 n
                               (initial (sound [x61; x0d; x0d; x0a; x62])))
                   = Raised e)) /\
    (forall e, In e (result o) ->
       exists s bs line,
         reachable (sound [x61; x0d; x0d; x0a; x62]) 2 s /\
         candidate s = Some bs /\
         decode bs = Some line /\ appended s = [e] /\
         e = rstrip line CR ++ [LF]) /\
    (fault (sound [x61; x0d; x0d; x0a; x62]) = None ->
     utf8_valid (content (sound [x61; x0d; x0d; x0a; x62])) = true ->
     forall e, In e (result o) ->
       exists span line,
         In span (split_nl (content (sound [x61; x0d; x0d; x0a; x62]))) /\
         span <> [] /\
         decode span = Some line /\ e = rstrip line CR ++ [LF] /\
         ~ In LF (rstrip line CR)).
Proof.
  apply (emitted_lines_normalized "notes.txt"
           (sound [x61; x0d; x0d; x0a; x62]) 2). lia.
Defined.

(** ** A missing file (C7) *)

(** Before the handlers, a scan prints the warning of the final flush
    and nothing else. *)
Lemma scan_prints_warning_only (f : file) (c : Z) (s : config) :
  reachable f c s -> forall x, In x (printed s) -> x = msg_warning.
Proof.
  intros Hr.
  apply (reachable_ind f c
           (fun s => forall x, In x (printed s) -> x = msg_warning));
    [intros x [] | | exact Hr].
  clear s Hr. intros s _ IH. unfold step.
  destruct (at_point s); try exact IH.
  - destruct (0 <? position s); [|exact IH].
    destruct (seek_read _ _ _ _); exact IH.
  - destruct (rfind (buffer s) newline =? -1); exact IH.
  - destruct (decode (line_bytes s)); exact IH.
  - destruct (buffer s); [exact IH|].
    destruct (decode _); [exact IH|].
    fields. intros x Hx. apply in_app_or in Hx.
    destruct Hx as [Hx|[<-|[]]]; auto.
Qed.

(** C7, as stated, fails for a path that is there and is no readable file:
    for a directory [open] raises [IsADirectoryError], the second handler
    takes it, and the line printed is the one of a read error; the line that
    tells a file was not found is not printed. *)
Lemma unreadable_path_not_reported_as_missing :
  let o := {| result := []; self_lines := [];
              stdout := ["Error during chunked reverse read: [Errno 21] Is a directory: 'data'"%string] |} in
  reverse_lines_chunked "data"
    (Unopenable "[Errno 21] Is a directory: 'data'") 8192 = Some o /\
  ~ In "File not found: data"%string (stdout o).
Proof.
  split; [reflexivity|]. intros [H|[]]. discriminate H.
Qed.

(** C7, amended: when [open] fails no exception reaches the caller and the
    empty list is returned, for every chunk size.  When the path names no
    file the line printed is [File not found: <path>]; when [open] fails in
    another way the line printed is that of a read error, with the text of
    the exception.  The line [File not found: <path>] is printed exactly
    when the path names no file: not when [open] fails in another way, and
    by no scan of a file that was opened. *)
Theorem path_without_file_gives_empty_list (path : string) (c : Z) :
  reverse_lines_chunked path Missing c
  = Some {| result := []; self_lines := [];
            stdout := [("File not found: " ++ path)%string] |} /\
  (forall e,
     reverse_lines_chunked path (Unopenable e) c
     = Some {| result := []; self_lines := [];
               stdout := [("Error during chunked reverse read: " ++ e)%string]
            |}) /\
  (forall st o,
     reverse_lines_chunked path st c = Some o ->
     (In ("File not found: " ++ path)%string (stdout o) <-> st = Missing)).
Proof.
  split; [reflexivity|]. split; [reflexivity|].
  intros [|e|f] o H; cbn in H.
  - injection H as <-. split; [reflexivity|]. intros _. now left.
  - injection H as <-. split; [|discriminate].
    intros [H|[]]. discriminate H.
  - split; [|discriminate]. intros Hin. exfalso.
    destruct (run_reaches path f c _ _ _ H) as [n Hn].
    assert (Hr : reachable f c (after f c n (initial f))) by now exists n.
    pose proof (scan_prints_warning_only f c _ Hr) as Hp.
    unfold conclude in Hn.
    destruct (at_point (after f c n (initial f))); try discriminate;
      injection Hn as <-; cbn [stdout handler] in Hin.
    + apply Hp in Hin. discriminate Hin.
    + apply in_app_or in Hin. destruct Hin as [Hin|[Hin|[]]].
      * apply Hp in Hin. discriminate Hin.
      * discriminate Hin.
Qed.

(** ** Size of the buffer (C9) *)

(** C9, as stated, fails: in the file [0xFF '\n'] repeated four times every
    span is one byte long; with chunk size 2 the candidates [0xFF] never
    decode and pile up, and after 13 transitions the buffer holds 6 bytes,
    more than 2 + 1. *)
Lemma undecodable_bytes_pile_up :
  let F := [xff; x0a; xff; x0a; xff; x0a; xff; x0a] in
  let s := after (sound F) 2 13 (initial (sound F)) in
  reachable (sound F) 2 s /\
  longest_span F = 1 /\ len (buffer s) = 6 /\
  ~ len (buffer s) <= 2 + longest_span F.
Proof.
  cbv zeta. repeat split; try reflexivity; [now exists 13%nat|].
  vm_compute. intros H. now apply H.
Qed.

(** C9, amended: for every UTF-8-valid file read without failure and every
    chunk size at least 1, at every point of the scan the bytes held (the
    buffer, and with it the candidate while it is cut off) number at most
    the chunk size plus the length of the longest span free of line feeds,
    whatever the size of the file. *)
Theorem buffer_bounded_on_valid_files (F : bytes) (c : Z) (s : config) :
  utf8_valid F = true -> 1 <= c -> reachable (sound F) c s ->
  len (buffer s) <= len (pending s) /\
  len (pending s) <= c + longest_span F.
Proof.
  intros Hv Hc Hs. split.
  - unfold pending. destruct (at_point s); try lia.
    rewrite len_app. pose proof (len_nonneg (line_bytes s)). lia.
  - apply reachable_scan_inv in Hs; auto using utf8_valid_decode.
    now destruct Hs.
Qed.

Lemma buffer_bounded_on_valid_files_witness :
  let F := [x61; x62; x0a; xe2; x82; xac; x0a; x63] in
  let s := after (sound F) 3 4 (initial (sound F)) in
  len (buffer s) <= len (pending s) /\
  len (pending s) <= 3 + longest_span F.
Proof.
  apply (buffer_bounded_on_valid_files
           [x61; x62; x0a; xe2; x82; xac; x0a; x63] 3);
    [reflexivity|lia|now exists 4%nat].
Defined.

(** ** The cursor (C6) *)

(** C6: for every file and every chunk size at least 1, at every point of
    the scan the cursor lies between 0 and the length of the file and no
    transition increases it; every backward fetch asks for exactly
    [min(chunk_size, position)] bytes, at least one, moves the cursor down
    by that amount without passing 0, and what it reads is the file bytes
    between the new and the old cursor; the outer loop is only left with
    the cursor at 0; and the method returns. *)
Theorem cursor_moves_back_until_zero (path : string) (f : file) (c : Z) :
  1 <= c ->
  (forall s, reachable f c s ->
     0 <= position s <= len (content f) /\
     position (step f c s) <= position s /\
     (at_point s = AtFlush -> position s = 0) /\
     (at_point s = AtWhilePosition -> 0 < position s ->
      let read_size := Z.min c (position s) in
      1 <= read_size /\
      position (step f c s) = position s - read_size /\
      0 <= position (step f c s) < position s /\
      forall chunk,
        seek_read f (fetches s) (position s - read_size) read_size
        = inl chunk ->
        chunk = interval (content f) (position s - read_size) (position s) /\
        len chunk = read_size /\
        buffer (step f c s) = chunk ++ buffer s)) /\
  exists o, reverse_lines_chunked path (Present f) c = Some o.
Proof.
  intros Hc. split.
  - intros s Hs.
    destruct (reachable_well_formed f c Hc s Hs) as (Hpos & _ & Hfl).
    split; [assumption|]. split; [|split; [assumption|]].
    + unfold step. destruct (at_point s).
      * destruct (Z.ltb_spec 0 (position s));
          [destruct (seek_read _ _ _ _)|]; fields; lia.
      * destruct (rfind (buffer s) newline =? -1); fields; lia.
      * destruct (decode (line_bytes s)); fields; lia.
      * destruct (buffer s); [|destruct (decode _)]; fields; lia.
      * lia.
      * lia.
    + intros Hp Hgt. cbv zeta. unfold step. rewrite Hp.
      destruct (Z.ltb_spec 0 (position s)); [|lia].
      split; [lia|]. split; [|split].
      * destruct (seek_read _ _ _ _); reflexivity.
      * destruct (seek_read _ _ _ _); fields; lia.
      * intros chunk Hread. rewrite Hread. fields.
        apply seek_read_ok in Hread; [|lia].
        split; [|split; [|reflexivity]].
        -- unfold interval.
           replace (position s - (position s - Z.min c (position s)))
             with (Z.min c (position s)) by lia.
           exact Hread.
        -- subst chunk. unfold len in *.
           rewrite length_firstn, length_skipn. lia.
  - destruct (method_returns path f c Hc) as (o & _ & Ho & _). now exists o.
Qed.

Lemma cursor_moves_back_until_zero_witness :
  (forall s, reachable (sound [x61; x0a; x62; x0a; x63]) 2 s ->
     0 <= position s <= len (content (sound [x61; x0a; x62; x0a; x63])) /\
     position (step (sound [x61; x0a; x62; x0a; x63]) 2 s) <= position s /\
     (at_point s = AtFlush -> position s = 0) /\
     (at_point s = AtWhilePosition -> 0 < position s ->
      let read_size := Z.min 2 (position s) in
      1 <= read_size /\
      position (step (sound [x61; x0a; x62; x0a; x63]) 2 s)
      = position s - read_size /\
      0 <= position (step (sound [x61; x0a; x62; x0a; x63]) 2 s)
        < position s /\
      forall chunk,
        seek_read (sound [x61; x0a; x62; x0a; x63]) (fetches s)
                  (position s - read_size) read_size
        = inl chunk ->
        chunk = interval (content (sound [x61; x0a; x62; x0a; x63]))
                         (position s - read_size) (position s) /\
        len chunk = read_size /\
        buffer (step (sound [x61; x0a; x62; x0a; x63]) 2 s)
        = chunk ++ buffer s)) /\
  exists o,
    reverse_lines_chunked "log.txt"
      (Present (sound [x61; x0a; x62; x0a; x63])) 2 = Some o.
Proof.
  apply (cursor_moves_back_until_zero "log.txt"
           (sound [x61; x0a; x62; x0a; x63]) 2). lia.
Defined.

(** ** A failing read (C8) *)

Section FailingRead.
Variable f : file.
Variable c : Z.
Variable k : nat.
Variable msg : string.
Hypothesis c_pos : 1 <= c.
Hypothesis f_fault : fault f = Some (k, msg).
Hypothesis fault_reached : Z.of_nat k * c < len (content f).

Lemma reachable_before_failure (s : config) :
  reachable f c s -> before_failure f c k msg s.
Proof.
  revert s. apply (reachable_ind f c (before_failure f c k msg)).
  { split; [reflexivity|]. unfold initial. fields.
    split; [lia|]. pose proof (len_nonneg (content f)). lia. }
  intros s Hs [Hprint Hinv]. unfold before_failure, step.
  destruct (at_point s) as [| | | |v|e] eqn:Hp; try contradiction.
  - destruct Hinv as [Hk Hpos].
    assert (Z.of_nat (fetches s) * c <= Z.of_nat k * c) by nia.
    destruct (Z.ltb_spec 0 (position s)); [|lia].
    destruct (seek_read _ _ _ _) as [chunk|e] eqn:Hread; fields;
      (split; [assumption|]);
      unfold seek_read, fault_at in Hread; rewrite f_fault in Hread;
      destruct (Nat.eqb_spec (fetches s) k) as [E|E].
    + discriminate.
    + split; [lia|]. rewrite Nat2Z.inj_succ. nia.
    + injection Hread as <-. split; [reflexivity|]. now exists s.
    + exfalso.
      destruct (Z.ltb_spec (Z.min c (position s)) (-1)); [lia|].
      destruct (Z.eqb_spec (Z.min c (position s)) (-1)); [lia|].
      discriminate.
  - destruct (rfind (buffer s) newline =? -1); fields; auto.
  - destruct (decode (line_bytes s)); fields; auto.
  - rewrite Hp. auto.
Qed.
End FailingRead.

(** C8, as stated, fails: reading ["a\nb\nc\n"] by chunks of 2 with the
    third fetch failing, the scan has gathered [["c\n"]] when the failure
    occurs; the method prints the error and returns the empty list, the
    gathered line stays in [self.lines] only. *)
Lemma gathered_lines_not_returned :
  let f := {| content := [x61; x0a; x62; x0a; x63; x0a];
              fault := Some (2%nat, "[Errno 5] Input/output error"%string) |} in
  reverse_lines_chunked "log.txt" (Present f) 2
  = Some {| result := []; self_lines := [[99; 10]];
            stdout := [msg_error "[Errno 5] Input/output error"] |} /\
  lines (after f 2 8 (initial f)) = [[99; 10]] /\
  at_point (after f 2 9 (initial f)) = Raised "[Errno 5] Input/output error" /\
  @nil str <> [[99; 10]].
Proof. cbv zeta. repeat split; try reflexivity. discriminate. Qed.

(** C8, amended: when a fetch of the scan fails, the method stops there,
    prints the error message with the text of the exception and returns the
    empty list; the lines gathered up to the failure are not returned, they
    are what [self.lines] holds afterwards. *)
Theorem failing_read_returns_empty_list
    (path : string) (f : file) (c : Z) (k : nat) (msg : string) :
  1 <= c -> fault f = Some (k, msg) -> Z.of_nat k * c < len (content f) ->
  exists o s,
    reverse_lines_chunked path (Present f) c = Some o /\
    reachable f c s /\ at_point s = AtWhilePosition /\ fetches s = k /\
    at_point (step f c s) = Raised msg /\
    result o = [] /\ self_lines o = lines s /\ stdout o = [msg_error msg].
Proof.
  intros Hc Hf Hk.
  destruct (method_returns path f c Hc) as (o & s & Ho & Hs & Hcon).
  destruct (reachable_before_failure f c k msg Hc Hf Hk s Hs) as [Hp Hinv].
  unfold conclude in Hcon.
  destruct (at_point s) as [| | | |v|e]; try discriminate; try contradiction.
  destruct Hinv as (-> & s0 & Hs0 & Hp0 & Hk0 & Hl).
  injection Hcon as <-. eexists. exists s0.
  split; [exact Ho|]. cbn [handler result self_lines stdout].
  rewrite Hp. repeat split; auto.
  destruct (reachable_before_failure f c k msg Hc Hf Hk s0 Hs0) as [_ H0].
  rewrite Hp0 in H0. destruct H0 as [_ Hpos].
  unfold step. rewrite Hp0.
  assert (0 < position s0) by (rewrite Hk0 in Hpos; lia).
  destruct (Z.ltb_spec 0 (position s0)); [|lia].
  unfold seek_read, fault_at. rewrite Hf, Hk0, Nat.eqb_refl. reflexivity.
Qed.

Lemma failing_read_returns_empty_list_witness :
  exists o s,
    reverse_lines_chunked "log.txt"
      (Present {| content := [x61; x0a; x62; x0a; x63; x0a];
                  fault := Some (2%nat, "device error"%string) |}) 2
    = Some o /\
    reachable {| content := [x61; x0a; x62; x0a; x63; x0a];
                 fault := Some (2%nat, "device error"%string) |} 2 s /\
    at_point s = AtWhilePosition /\ fetches s = 2%nat /\
    at_point (step {| content := [x61; x0a; x62; x0a; x63; x0a];
                      fault := Some (2%nat, "device error"%string) |} 2 s)
    = Raised "device error" /\
    result o = [] /\ self_lines o = lines s /\
    stdout o = [msg_error "device error"].
Proof.
  apply (failing_read_returns_empty_list "log.txt"
           {| content := [x61; x0a; x62; x0a; x63; x0a];
              fault := Some (2%nat, "device error"%string) |}
           2 2 "device error"); [lia|reflexivity|vm_compute; reflexivity].
Defined.

(** ** Further properties of [reverse_lines_chunked] *)

Lemma rfind_missing (l : bytes) (b : byte) : ~ In b l -> rfind l b = -1.
Proof.
  intros H. destruct (Z.eq_dec (rfind l b) (-1)) as [E|E]; [exact E|].
  destruct (rfind_present l b E) as (pre & suf & -> & _).
  exfalso. apply H. apply in_or_app. right. now left.
Qed.

(** X1: on a UTF-8-valid file read without failure, everything the caller
    observes (returned list, [self.lines], printed text) is the same for any
    two chunk sizes that are at least 1. *)
Theorem outcome_independent_of_chunk_size
    (path : string) (F : bytes) (c1 c2 : Z) :
  utf8_valid F = true -> 1 <= c1 -> 1 <= c2 ->
  reverse_lines_chunked path (Present (sound F)) c1
  = reverse_lines_chunked path (Present (sound F)) c2 /\
  exists o, reverse_lines_chunked path (Present (sound F)) c1 = Some o /\
            result o = self_lines o /\ stdout o = [].
Proof.
  intros Hv H1 H2. apply utf8_valid_decode in Hv.
  rewrite !valid_scan_result by assumption. split; [reflexivity|].
  eexists. split; [reflexivity|]. split; reflexivity.
Qed.

Lemma outcome_independent_of_chunk_size_witness :
  reverse_lines_chunked "a.txt" (Present (sound [x61; x0a; xc3; xa9])) 1
  = reverse_lines_chunked "a.txt" (Present (sound [x61; x0a; xc3; xa9])) 3 /\
  exists o,
    reverse_lines_chunked "a.txt" (Present (sound [x61; x0a; xc3; xa9])) 1
    = Some o /\ result o = self_lines o /\ stdout o = [].
Proof.
  apply (outcome_independent_of_chunk_size "a.txt" [x61; x0a; xc3; xa9] 1 3);
    [reflexivity|lia|lia].
Defined.

(** X2: on a UTF-8-valid file read without failure, at every point before
    the return the pending bytes are the file bytes that start at the cursor,
    in file order, and [self.lines] is already the final output of the part
    of the file that lies beyond them and the line feed that follows. *)
Theorem partial_output_is_output_of_suffix (F : bytes) (c : Z) (s : config) :
  utf8_valid F = true -> 1 <= c -> reachable (sound F) c s ->
  ended s = false ->
  pending s = interval F (position s) (position s + len (pending s)) /\
  lines s
  = expected_output
      (skipn (Z.to_nat (position s + len (pending s) + 1)) F).
Proof.
  intros Hv Hc Hs He. split; [now apply (valid_pending_interval F c)|].
  apply reachable_scan_inv in Hs; auto using utf8_valid_decode.
  destruct Hs as (_ & _ & Hinv). unfold ended in He.
  assert (H : exists pre rest,
             F ++ [newline] = pre ++ pending s ++ newline :: rest /\
             len pre = position s /\ lines s = expected_output rest).
  { destruct (at_point s); try discriminate;
      destruct Hinv as (pre & rest & HF & Hl & Hlines & _); eauto. }
  destruct H as (pre & rest & HF & Hl & ->).
  rewrite <- Hl, <- !len_app.
  destruct rest as [|b rest'].
  - rewrite app_assoc in HF. apply app_inj_tail in HF. destruct HF as [-> _].
    rewrite skipn_all2; [reflexivity|].
    unfold len. rewrite !length_app in *. lia.
  - destruct (cons_as_tail b rest') as (r & y & Er). rewrite Er in *.
    assert (HF' : F ++ [newline] = (pre ++ pending s ++ newline :: r) ++ [y])
      by (rewrite HF, <- !app_assoc; reflexivity).
    apply app_inj_tail in HF'. destruct HF' as [-> <-].
    rewrite expected_output_final_newline.
    replace (pre ++ pending s ++ newline :: r)
      with ((pre ++ pending s ++ [newline]) ++ r)
      by (rewrite <- !app_assoc; reflexivity).
    replace (Z.to_nat (len (pre ++ pending s) + 1))
      with (length (pre ++ pending s ++ [newline]))
      by (unfold len; rewrite !length_app; simpl; lia).
    now rewrite skipn_app, skipn_all, Nat.sub_diag.
Qed.

Lemma partial_output_is_output_of_suffix_witness :
  let F := [x61; x0a; x62; x0a; x63] in
  let s := after (sound F) 2 7 (initial (sound F)) in
  pending s = interval F (position s) (position s + len (pending s)) /\
  lines s
  = expected_output
      (skipn (Z.to_nat (position s + len (pending s) + 1)) F).
Proof.
  apply (partial_output_is_output_of_suffix [x61; x0a; x62; x0a; x63] 2);
    [reflexivity|lia|now exists 7%nat|reflexivity].
Defined.

(** X3: on an empty file the loop is not entered: whatever the chunk size
    (zero and negative ones too) nothing is read, nothing is printed and the
    empty list is returned. *)
Theorem empty_file_gives_empty_list (path : string) (f : file) (c : Z) :
  content f = [] ->
  reverse_lines_chunked path (Present f) c
  = Some {| result := []; self_lines := []; stdout := [] |}.
Proof.
  destruct f as [F fl]. cbn [content]. intros ->. reflexivity.
Qed.

Lemma empty_file_gives_empty_list_witness :
  reverse_lines_chunked "e.txt"
    (Present {| content := []; fault := Some (0%nat, "gone"%string) |}) (-7)
  = Some {| result := []; self_lines := []; stdout := [] |}.
Proof.
  apply (empty_file_gives_empty_list "e.txt"
           {| content := []; fault := Some (0%nat, "gone"%string) |} (-7)).
  reflexivity.
Defined.

Lemma sound_fetch (F : bytes) (c : Z) (k : nat) (p : Z) :
  1 <= c -> 0 < p ->
  seek_read (sound F) k (p - Z.min c p) (Z.min c p)
  = inl (firstn (Z.to_nat (Z.min c p))
                (skipn (Z.to_nat (p - Z.min c p)) F)).
Proof.
  intros Hc Hp. unfold seek_read, fault_at. cbn [sound fault content].
  destruct (Z.ltb_spec (Z.min c p) (-1)); [lia|].
  destruct (Z.eqb_spec (Z.min c p) (-1)); [lia|]. reflexivity.
Qed.

(** X4: a non-empty file without any line feed is one line: it is decoded as
    a whole after the loop and returned as a single element, closed by a
    line feed; when it is not valid UTF-8 the bytes are dropped, the warning
    is printed and the empty list is returned. *)
Theorem file_without_line_feed (path : string) (F : bytes) (c : Z) :
  1 <= c -> ~ In newline F -> F <> [] ->
  reverse_lines_chunked path (Present (sound F)) c
  = Some match decode F with
         | Some line =>
             {| result := [normalize line]; self_lines := [normalize line];
                stdout := [] |}
         | None =>
             {| result := []; self_lines := []; stdout := [msg_warning] |}
         end.
Proof.
  intros Hc Hnl Hne.
  destruct (method_returns path (sound F) c Hc) as (o & s & Ho & Hs & Hcon).
  rewrite Ho. f_equal.
  assert (Hinv : single_line_inv F s).
  { revert s Hs Hcon. intros s Hs _. revert s Hs.
    apply (reachable_ind (sound F) c (single_line_inv F)).
    { unfold single_line_inv. cbn. repeat split.
      exists F. now rewrite app_nil_r. }
    intros s _ H. unfold single_line_inv, step in *.
    destruct (at_point s) as [| | | |v|e] eqn:Hp; try contradiction.
    - destruct H as (Hl & Hpr & pre & HF & Hlen).
      pose proof (len_nonneg pre).
      destruct (Z.ltb_spec 0 (position s)).
      + rewrite sound_fetch by assumption. fields.
        repeat split; auto.
        exists (firstn (Z.to_nat (position s - Z.min c (position s))) pre).
        rewrite HF at 2. rewrite chunk_before_cursor; [|lia..].
        split.
        * now rewrite app_assoc, firstn_skipn.
        * unfold len in *. rewrite length_firstn. lia.
      + fields. repeat split; auto.
        destruct pre as [|b pre']; [now rewrite HF|].
        rewrite len_cons in Hlen. pose proof (len_nonneg pre'). lia.
    - destruct H as (Hl & Hpr & pre & HF & Hlen).
      rewrite rfind_missing.
      + fields. repeat split; auto. now exists pre.
      + intros Hin. apply Hnl. rewrite HF. apply in_or_app. now right.
    - destruct H as (Hl & Hpr & Hb). rewrite Hb.
      destruct F as [|b t]; [congruence|].
      destruct (decode (b :: t)); fields; rewrite ?Hl, ?Hpr; auto.
    - rewrite Hp. exact H. }
  unfold single_line_inv, conclude in *.
  destruct (at_point s) as [| | | |v|e]; try discriminate; try contradiction.
  injection Hcon as <-.
  destruct (decode F); destruct Hinv as (-> & -> & ->); reflexivity.
Qed.

Lemma file_without_line_feed_witness :
  reverse_lines_chunked "w.txt" (Present (sound [x61; xff])) 1
  = Some match decode [x61; xff] with
         | Some line =>
             {| result := [normalize line]; self_lines := [normalize line];
                stdout := [] |}
         | None =>
             {| result := []; self_lines := []; stdout := [msg_warning] |}
         end.
Proof.
  apply (file_without_line_feed "w.txt" [x61; xff] 1);
    [lia | intros [H|[H|[]]]; discriminate | discriminate].
Defined.

(** X5: with chunk size 0 every fetch reads nothing and leaves the cursor
    where it is, so on a non-empty file read without failure the loop is
    never left: no number of transitions reaches the return, and no amount
    of fuel gives a result. *)
Theorem zero_chunk_size_never_returns (path : string) (F : bytes) :
  F <> [] ->
  (forall n, ended (after (sound F) 0 n (initial (sound F))) = false) /\
  (forall fuel, run path (sound F) 0 fuel (initial (sound F)) = None) /\
  reverse_lines_chunked path (Present (sound F)) 0 = None.
Proof.
  intros Hne.
  assert (Hlen : 0 < len F).
  { destruct F; [congruence|]. rewrite len_cons.
    pose proof (len_nonneg F). lia. }
  assert (Hstep : forall s, stuck_inv F s -> stuck_inv F (step (sound F) 0 s)).
  { intros s ([Hp|Hp] & Hpos & Hb); unfold stuck_inv, step; rewrite Hp.
    - destruct (Z.ltb_spec 0 (position s)); [|lia].
      unfold seek_read, fault_at. cbn [sound fault content].
      replace (Z.min 0 (position s)) with 0 by lia. cbn [Z.ltb Z.eqb].
      cbn. rewrite Hb. repeat split; auto. lia.
    - rewrite Hb. cbn. repeat split; auto. }
  assert (Hinit : stuck_inv F (initial (sound F)))
    by (unfold stuck_inv; cbn; auto).
  assert (Hrun : forall fuel s, stuck_inv F s ->
                   run path (sound F) 0 fuel s = None).
  { induction fuel as [|fuel IH]; intros s Hs; cbn [run];
      assert (Hc : conclude path s = None)
        by (unfold conclude; destruct Hs as ([->| ->] & _); reflexivity);
      rewrite Hc; [reflexivity|]. apply IH. now apply Hstep. }
  split; [|split].
  - intros n.
    assert (H : stuck_inv F (after (sound F) 0 n (initial (sound F)))).
    { induction n as [|n IH]; [exact Hinit|].
      rewrite after_step. now apply Hstep. }
    unfold ended. destruct H as ([->| ->] & _); reflexivity.
  - intros fuel. now apply Hrun.
  - cbn [reverse_lines_chunked]. now apply Hrun.
Qed.

Lemma zero_chunk_size_never_returns_witness :
  (forall n, ended (after (sound [x61; x0a]) 0 n (initial (sound [x61; x0a])))
             = false) /\
  (forall fuel,
     run "z.txt" (sound [x61; x0a]) 0 fuel (initial (sound [x61; x0a]))
     = None) /\
  reverse_lines_chunked "z.txt" (Present (sound [x61; x0a])) 0 = None.
Proof.
  apply (zero_chunk_size_never_returns "z.txt" [x61; x0a]). discriminate.
Defined.

(** X6: reading without failure with a chunk size of at least 1, after [j]
    fetches the cursor is at [max(0, N - j * chunk_size)], so the fetched
    ranges tile the file from its end and no byte is fetched twice; and when
    the method has returned it has issued exactly [ceil(N / chunk_size)]
    fetches. *)
Theorem every_byte_fetched_once (F : bytes) (c : Z) (s : config) :
  1 <= c -> reachable (sound F) c s ->
  position s = Z.max 0 (len F - Z.of_nat (fetches s) * c) /\
  (ended s = true -> Z.of_nat (fetches s) = (len F + c - 1) / c).
Proof.
  intros Hc Hs.
  assert (Hinv : fetch_inv F c s).
  { revert s Hs. apply (reachable_ind (sound F) c (fetch_inv F c)).
    { unfold fetch_inv. cbn. pose proof (len_nonneg F). repeat split; auto.
      lia. }
    intros s _ (Hpos & Hj & Hp). unfold fetch_inv, step in *.
    destruct (at_point s) as [| | | |v|e] eqn:Hpt; try contradiction.
    - destruct (Z.ltb_spec 0 (position s)).
      + rewrite sound_fetch by assumption. fields.
        rewrite Nat2Z.inj_succ. repeat split; [nia|right; nia].
      + fields. pose proof (len_nonneg F). repeat split; auto; lia.
    - destruct (rfind (buffer s) newline =? -1); fields; auto.
    - destruct (decode (line_bytes s)); fields; auto.
    - destruct (buffer s); [|destruct (decode _)]; fields; auto.
    - rewrite Hpt. auto. }
  destruct Hinv as (Hpos & Hj & Hp). split; [assumption|].
  unfold ended. intros He.
  assert (H0 : position s = 0)
    by (destruct (at_point s); try discriminate; auto; contradiction).
  pose proof (len_nonneg F).
  destruct Hj as [Hj|Hj].
  - rewrite Hj in *. cbn in Hpos. assert (len F = 0) by lia.
    symmetry. apply Z.div_small. lia.
  - apply (Z.div_unique _ _ _ (len F + c - 1 - Z.of_nat (fetches s) * c));
      [left|]; nia.
Qed.

Lemma every_byte_fetched_once_witness :
  let F := [x61; x0a; x62; x0a; x63] in
  let s := after (sound F) 2 20 (initial (sound F)) in
  position s = Z.max 0 (len F - Z.of_nat (fetches s) * 2) /\
  (ended s = true -> Z.of_nat (fetches s) = (len F + 2 - 1) / 2).
Proof.
  apply (every_byte_fetched_once [x61; x0a; x62; x0a; x63] 2);
    [lia|now exists 20%nat].
Defined.

(** X7: when the file is read without failure (valid UTF-8 or not, chunk
    size at least 1) the method returns [self.lines] itself and prints
    nothing, except for the warning about the final bytes, which only
    appears for a file that is not valid UTF-8. *)
Theorem readable_file_outcome (path : string) (F : bytes) (c : Z) :
  1 <= c ->
  exists o,
    reverse_lines_chunked path (Present (sound F)) c = Some o /\
    result o = self_lines o /\
    (stdout o = [] \/ (stdout o = [msg_warning] /\ utf8_valid F = false)).
Proof.
  intros Hc.
  destruct (method_returns path (sound F) c Hc) as (o & s & Ho & Hs & Hcon).
  exists o. split; [assumption|].
  assert (Hinv : quiet_inv s).
  { revert s Hs Hcon. intros s Hs _. revert s Hs.
    apply (reachable_ind (sound F) c quiet_inv); [reflexivity|].
    intros s _ H. unfold quiet_inv, step in *.
    destruct (at_point s) as [| | | |v|e] eqn:Hp; try contradiction.
    - destruct (Z.ltb_spec 0 (position s)); fields; auto.
      rewrite sound_fetch by assumption. fields. assumption.
    - destruct (rfind (buffer s) newline =? -1); fields; auto.
    - destruct (decode (line_bytes s)); fields; auto.
    - destruct (buffer s); [|destruct (decode _)]; fields; rewrite H; auto.
    - rewrite Hp. assumption. }
  unfold quiet_inv, conclude in *.
  destruct (at_point s) as [| | | |v|e]; try discriminate; try contradiction.
  injection Hcon as <-. cbn [result self_lines stdout].
  destruct Hinv as [-> Hpr]. split; [reflexivity|].
  destruct Hpr as [Hpr|Hpr]; [now left|right]. split; [assumption|].
  destruct (utf8_valid F) eqn:Hv; [|reflexivity].
  rewrite (valid_scan_result F c Hc (utf8_valid_decode F Hv) path) in Ho.
  injection Ho as _ _ Hout. rewrite Hpr in Hout. discriminate.
Qed.

Lemma readable_file_outcome_witness :
  exists o,
    reverse_lines_chunked "r.txt" (Present (sound [x61; x0a; xff])) 2 = Some o /\
    result o = self_lines o /\
    (stdout o = [] \/
     (stdout o = [msg_warning] /\ utf8_valid [x61; x0a; xff] = false)).
Proof.
  apply (readable_file_outcome "r.txt" [x61; x0a; xff] 2). lia.
Defined.

(** ** Forward iteration: [__next__], [reset], [read_lines] *)

Lemma skipn_nth_error {A} (l : list A) (i : nat) (x : A) :
  nth_error l i = Some x -> skipn i l = x :: skipn (S i) l.
Proof.
  revert l. induction i as [|i IH]; intros [|a l]; simpl; try discriminate.
  - now intros [= ->].
  - intros H. now rewrite (IH l H).
Qed.

(** From index [i] on, [k] calls give the next lines in order, then [None]
    with the message for every call past the end. *)
Lemma calls_from (k i : nat) (self : txt_lines) :
  lines_iterator self = Z.of_nat i -> (i <= length (obj_lines self))%nat ->
  calls k self
  = (map Line (firstn k (skipn i (obj_lines self)))
       ++ repeat NoneValue (k - (length (obj_lines self) - i)),
     repeat msg_no_more (k - (length (obj_lines self) - i)),
     {| obj_filepath := obj_filepath self; obj_lines := obj_lines self;
        lines_iterator := Z.of_nat (Nat.min (i + k) (length (obj_lines self)))
     |}).
Proof.
  revert i self. induction k as [|k IH]; intros i self Hi Hle.
  - cbn [calls firstn map repeat Nat.sub app]. rewrite Nat.add_0_r, Nat.min_l by lia.
    rewrite <- Hi. now destruct self.
  - cbn [calls]. unfold __next__. rewrite Hi. unfold len.
    destruct (Z.leb_spec (Z.of_nat (length (obj_lines self))) (Z.of_nat i)).
    + assert (i = length (obj_lines self)) by lia. subst i.
      rewrite (IH (length (obj_lines self)) self Hi Hle).
      rewrite skipn_all, !firstn_nil, Nat.sub_diag, !Nat.sub_0_r.
      rewrite !Nat.min_r by lia. reflexivity.
    + unfold index. destruct (Z.leb_spec 0 (Z.of_nat i)); [|lia].
      rewrite Nat2Z.id.
      destruct (nth_error (obj_lines self) i) as [x|] eqn:Hx.
      * rewrite (IH (S i)); cbn [obj_lines obj_filepath lines_iterator];
          [|lia|lia].
        rewrite (skipn_nth_error _ _ _ Hx). cbn [firstn map app].
        replace (S k - (length (obj_lines self) - i))%nat
          with (k - (length (obj_lines self) - S i))%nat by lia.
        replace (S i + k)%nat with (i + S k)%nat by lia. reflexivity.
      * apply nth_error_None in Hx. lia.
Qed.

(** X8: after [reset], whatever the state of the object was, [k] calls of
    [__next__] return the first [k] lines in order; every call past the
    last line returns [None] and prints the message, no exception is
    raised, and the iterator stops at the number of lines. *)
Theorem reset_then_iterate (self : txt_lines) (k : nat) :
  calls k (reset self)
  = (map Line (firstn k (obj_lines self))
       ++ repeat NoneValue (k - length (obj_lines self)),
     repeat msg_no_more (k - length (obj_lines self)),
     {| obj_filepath := obj_filepath self; obj_lines := obj_lines self;
        lines_iterator := Z.of_nat (Nat.min k (length (obj_lines self))) |}).
Proof.
  rewrite (calls_from k 0 (reset self)); cbn [reset obj_lines lines_iterator
    obj_filepath]; [|reflexivity|lia].
  now rewrite Nat.sub_0_r.
Qed.

(** X9: [reverse_lines_chunked] replaces [self.lines] and leaves the
    iterator where it was: on a UTF-8-valid file, [__next__] afterwards goes
    on from the old index [i] in the reversed list, and only after [reset]
    does it start at the last line of the file. *)
Theorem reverse_keeps_iterator
    (self : txt_lines) (F : bytes) (c : Z) (i k : nat) :
  utf8_valid F = true -> 1 <= c ->
  lines_iterator self = Z.of_nat i ->
  (i <= length (expected_output F))%nat ->
  exists self',
    reverse_method self (Present (sound F)) c
    = Some (expected_output F, [], self') /\
    obj_lines self' = expected_output F /\
    lines_iterator self' = Z.of_nat i /\
    fst (fst (calls k self'))
    = map Line (firstn k (skipn i (expected_output F)))
        ++ repeat NoneValue (k - (length (expected_output F) - i)) /\
    fst (fst (calls k (reset self')))
    = map Line (firstn k (expected_output F))
        ++ repeat NoneValue (k - length (expected_output F)).
Proof.
  intros Hv Hc Hi Hle. unfold reverse_method.
  rewrite (valid_scan_result F c Hc (utf8_valid_decode F Hv)).
  cbn [result stdout self_lines]. eexists. split; [reflexivity|].
  split; [reflexivity|]. split; [exact Hi|]. split.
  - rewrite (calls_from k i); cbn [obj_lines lines_iterator]; auto.
  - rewrite (calls_from k 0); cbn [reset obj_lines lines_iterator]; auto;
      [|lia]. cbn [fst skipn]. now rewrite Nat.sub_0_r.
Qed.

Lemma reverse_keeps_iterator_witness :
  exists self',
    reverse_method
      {| obj_filepath := Some "n.txt"%string; obj_lines := [[97; 10]; [98]];
         lines_iterator := 1 |}
      (Present (sound [x61; x0a; x62])) 2
    = Some (expected_output [x61; x0a; x62], [], self') /\
    obj_lines self' = expected_output [x61; x0a; x62] /\
    lines_iterator self' = Z.of_nat 1 /\
    fst (fst (calls 3 self'))
    = map Line (firstn 3 (skipn 1 (expected_output [x61; x0a; x62])))
        ++ repeat NoneValue
             (3 - (length (expected_output [x61; x0a; x62]) - 1)) /\
    fst (fst (calls 3 (reset self')))
    = map Line (firstn 3 (expected_output [x61; x0a; x62]))
        ++ repeat NoneValue (3 - length (expected_output [x61; x0a; x62])).
Proof.
  apply (reverse_keeps_iterator
           {| obj_filepath := Some "n.txt"%string;
              obj_lines := [[97; 10]; [98]]; lines_iterator := 1 |}
           [x61; x0a; x62] 2 1 3);
    [reflexivity|lia|reflexivity|vm_compute; lia].
Defined.

(** ** Forward and backward reading compared *)

Lemma byte_val_cr (b : byte) : byte_val b = CR -> b = x0d.
Proof.
  intros H. destruct b; try reflexivity; vm_compute in H; discriminate.
Qed.

(** A character below 128 is a byte of its own. *)
Lemma decode_one_ascii (bs : bytes) (c : Z) (rest : bytes) :
  decode_one bs = Some (c, rest) -> c < 128 ->
  exists b, bs = b :: rest /\ byte_val b = c.
Proof.
  destruct bs as [|b0 r0]; [discriminate|].
  cbn [decode_one]. unfold is_cont.
  split_lead b0 r0; try discriminate.
  - intros [= <- <-] _. now exists b0.
  - destruct (between 128 191 b1) eqn:E1; [|discriminate].
    intros [= <- <-]. apply between_spec in Heqb0, E1. unfold cp2. lia.
  - destruct (between _ _ b1) eqn:E1; [|discriminate].
    destruct (between 128 191 b2) eqn:E2; [|discriminate].
    intros [= <- <-]. apply between_spec in Heqb1, E1, E2. unfold cp3.
    unfold second_lo3, second_hi3 in E1.
    destruct (byte_val b0 =? 224) eqn:?, (byte_val b0 =? 237) eqn:?; lia.
  - destruct (between _ _ b1) eqn:E1; [|discriminate].
    destruct (between 128 191 b2) eqn:E2; [|discriminate].
    destruct (between 128 191 b3) eqn:E3; [|discriminate].
    intros [= <- <-]. apply between_spec in Heqb2, E1, E2, E3. unfold cp4.
    unfold second_lo4, second_hi4 in E1.
    destruct (byte_val b0 =? 240) eqn:?, (byte_val b0 =? 244) eqn:?; lia.
Qed.

(** A decoded carriage return comes from a byte [0x0D]. *)
Lemma decode_carriage_return (bs : bytes) (s : str) :
  decode bs = Some s -> In CR s -> In x0d bs.
Proof.
  remember (length bs) as n eqn:Hn.
  revert bs s Hn. induction n as [n IH] using lt_wf_ind. intros bs s Hn.
  rewrite decode_unfold. destruct bs as [|b r].
  - intros [= <-] [].
  - destruct (decode_one (b :: r)) as [[c rest]|] eqn:E; [|discriminate].
    destruct (decode rest) as [s'|] eqn:Er; [|discriminate].
    intros [= <-] [Hc|Hin].
    + destruct (decode_one_ascii _ _ _ E) as (b' & [= -> ->] & Hb);
        [unfold CR in Hc; lia|].
      left. apply byte_val_cr. congruence.
    + destruct (decode_one_prefix _ _ _ E) as (pre & Hb & _ & _).
      rewrite Hb. apply in_or_app. right.
      eapply (IH (length rest)); eauto.
      subst n. eauto using decode_one_shorter.
Qed.

Lemma universal_newlines_id (t : str) :
  ~ In CR t -> universal_newlines t = t.
Proof.
  induction t as [|ch r IH]; [reflexivity|]. intros H.
  cbn [universal_newlines].
  destruct (Z.eqb_spec ch CR) as [->|_]; [exfalso; apply H; now left|].
  rewrite IH; [reflexivity|]. intros ?. apply H. now right.
Qed.

Lemma rstrip_id (s : str) (ch : Z) : ~ In ch s -> rstrip s ch = s.
Proof.
  induction s as [|a t IH]; [reflexivity|]. intros H. cbn [rstrip].
  rewrite IH by (intros ?; apply H; now right).
  destruct t; [|reflexivity].
  destruct (Z.eqb_spec a ch) as [->|_]; [exfalso; apply H; now left|].
  reflexivity.
Qed.

Lemma readlines_one_line (u : str) :
  ~ In LF u -> readlines u = match u with [] => [] | _ => [u] end.
Proof.
  induction u as [|ch r IH]; [reflexivity|]. intros H. cbn [readlines].
  destruct (Z.eqb_spec ch LF) as [->|_]; [exfalso; apply H; now left|].
  rewrite IH by (intros ?; apply H; now right). now destruct r.
Qed.

Lemma readlines_app (u v : str) :
  ~ In LF u -> readlines (u ++ LF :: v) = (u ++ [LF]) :: readlines v.
Proof.
  induction u as [|ch r IH]; intros H.
  - reflexivity.
  - cbn [app readlines].
    destruct (Z.eqb_spec ch LF) as [->|_]; [exfalso; apply H; now left|].
    now rewrite IH by (intros ?; apply H; now right).
Qed.

Lemma closed_terminated (u : str) : closed (u ++ [LF]) = u ++ [LF].
Proof. unfold closed. now rewrite last_last, Z.eqb_refl. Qed.

Lemma closed_unterminated (u : str) :
  u <> [] -> ~ In LF u -> closed u = u ++ [LF].
Proof.
  intros Hne H. unfold closed.
  destruct (Z.eqb_spec (last u 0) LF) as [E|_]; [|reflexivity].
  exfalso. apply H. rewrite <- E.
  destruct (exists_last Hne) as (u' & x & ->). rewrite last_last.
  apply in_or_app. right. now left.
Qed.

Lemma not_blank_terminated (u : str) :
  ~ In LF u ->
  not_blank (u ++ [LF]) = match u with [] => false | _ => true end.
Proof.
  intros H. destruct u as [|a [|b t]]; try reflexivity.
Qed.

Lemma not_blank_unterminated (u : str) : ~ In LF u -> not_blank u = true.
Proof.
  intros H. destruct u as [|a [|b t]]; try reflexivity. cbn.
  destruct (Z.eqb_spec a LF) as [->|_]; [exfalso; apply H; now left|].
  reflexivity.
Qed.

Lemma first_line_feed (F : bytes) :
  ~ In newline F \/
  exists span rest, F = span ++ newline :: rest /\ ~ In newline span.
Proof.
  induction F as [|b t IH]; [left; intros []|].
  destruct (byte_eq_dec b newline) as [->|Hb].
  - right. exists [], t. split; [reflexivity|intros []].
  - destruct IH as [H|(span & rest & -> & H)].
    + left. intros [E|Hin]; [congruence|contradiction].
    + right. exists (b :: span), rest. split; [reflexivity|].
      intros [E|Hin]; [congruence|contradiction].
Qed.

Lemma emitted_for_plain (span : bytes) (u : str) :
  decode span = Some u -> ~ In CR u ->
  emitted_for span = match u with [] => [] | _ => [u ++ [LF]] end.
Proof.
  intros Hd Hcr. unfold emitted_for, normalize. rewrite Hd, rstrip_id by assumption.
  destruct u as [|a t]; [reflexivity|].
  rewrite len_cons. pose proof (len_nonneg t).
  destruct (Z.ltb_spec 0 (len t + 1)); [reflexivity|lia].
Qed.

(** What the backward scan emits, read off the forward lines of a text
    without carriage returns. *)
Lemma emitted_of_readlines (F : bytes) (t : str) :
  decode F = Some t -> ~ In CR t ->
  flat_map emitted_for (split_nl F)
  = map closed (filter not_blank (readlines t)).
Proof.
  remember (length F) as n eqn:Hn.
  revert F t Hn. induction n as [n IH] using lt_wf_ind. intros F t Hn Hd Hcr.
  destruct (first_line_feed F) as [Hnl|(span & rest & -> & Hnl)].
  - assert (Hlf : ~ In LF t)
      by (intros Hin; apply Hnl; now apply (decode_line_feed F t)).
    rewrite split_nl_single by assumption. cbn [flat_map].
    rewrite app_nil_r, (emitted_for_plain F t Hd Hcr).
    rewrite readlines_one_line by assumption.
    destruct t as [|a r]; [reflexivity|]. cbn [filter].
    rewrite not_blank_unterminated by assumption. cbn [map].
    now rewrite closed_unterminated.
  - rewrite decode_app_newline in Hd.
    destruct (decode span) as [u|] eqn:Hu; [|discriminate].
    destruct (decode rest) as [v|] eqn:Hv; [|discriminate].
    injection Hd as <-.
    assert (Hlf : ~ In LF u)
      by (intros Hin; apply Hnl; now apply (decode_line_feed span u)).
    assert (Hcu : ~ In CR u)
      by (intros Hin; apply Hcr; apply in_or_app; now left).
    assert (Hcv : ~ In CR v)
      by (intros Hin; apply Hcr; apply in_or_app; right; now right).
    rewrite split_nl_app_newline, flat_map_app, split_nl_single by assumption.
    cbn [flat_map]. rewrite app_nil_r, (emitted_for_plain span u Hu Hcu).
    rewrite readlines_app by assumption. cbn [filter].
    rewrite not_blank_terminated by assumption.
    rewrite (IH (length rest)) with (t := v); auto.
    + destruct u; [reflexivity|]. cbn [map]. now rewrite closed_terminated.
    + subst n. rewrite length_app. simpl. lia.
Qed.

(** X10: for a UTF-8-valid file without carriage returns, the reversed list
    is made of the lines that [read_lines] gives for the same file, blank
    lines left out, the last line closed by a line feed when it had none,
    taken in the opposite order. *)
Theorem reverse_of_read_lines (F : bytes) (c : Z) :
  utf8_valid F = true -> ~ In x0d F -> 1 <= c ->
  exists forward,
    read_lines (Present (sound F)) = inl forward /\
    reversed_lines F c
    = Some (rev (map closed (filter not_blank forward))).
Proof.
  intros Hv Hcr Hc. unfold read_lines. cbn [sound content].
  pose proof (valid_output F c Hc Hv) as Hout.
  unfold utf8_valid in Hv. destruct (decode F) as [t|] eqn:Hd; [|discriminate].
  assert (Ht : ~ In CR t)
    by (intros Hin; apply Hcr; now apply (decode_carriage_return F t)).
  eexists. split; [reflexivity|].
  rewrite Hout, universal_newlines_id by assumption.
  unfold expected_output. now rewrite (emitted_of_readlines F t).
Qed.

Lemma reverse_of_read_lines_witness :
  exists forward,
    read_lines (Present (sound [x61; x0a; x0a; xc3; xa9; x0a; x62]))
    = inl forward /\
    reversed_lines [x61; x0a; x0a; xc3; xa9; x0a; x62] 3
    = Some (rev (map closed (filter not_blank forward))).
Proof.
  apply (reverse_of_read_lines [x61; x0a; x0a; xc3; xa9; x0a; x62] 3);
    [reflexivity| |lia].
  intros [H|[H|[H|[H|[H|[H|[H|[]]]]]]]]; discriminate.
Defined.

(** ** Transactions *)

(** X11: [from_list] undoes [to_list], and it accepts exactly the rows of
    four fields, which it gives back unchanged through [to_list]; any other
    row is the [TypeError] of the constructor. *)
Theorem from_list_to_list (t : Transaction) (row : list string) :
  from_list (to_list t) = Some t /\
  (from_list row = Some t -> to_list t = row) /\
  (from_list row = None <-> length row <> 4%nat).
Proof.
  split; [now destruct t|]. split.
  - destruct row as [|d [|dep [|v [|b [|x r]]]]]; try discriminate.
    now intros [= <-].
  - destruct row as [|d [|dep [|v [|b [|x r]]]]]; cbn; split;
      try discriminate; try congruence; intros H; lia.
Qed.

(** X12: [is_match_with_tolerance] does not depend on which of the two
    transactions is asked: [a] matches [b] exactly when [b] matches [a]. *)
Theorem match_is_symmetric
    (strptime : string -> option Z) (a b : Transaction) :
  is_match_with_tolerance strptime a b = is_match_with_tolerance strptime b a.
Proof.
  unfold is_match_with_tolerance.
  rewrite (String.eqb_sym (department a)), (String.eqb_sym (value a)),
          (String.eqb_sym (beneficiary a)).
  destruct (_ || _ || _); [reflexivity|].
  destruct (strptime (date a)) as [d1|], (strptime (date b)) as [d2|];
    try reflexivity.
  replace (d2 - d1) with (- (d1 - d2)) by lia. now rewrite Z.abs_opp.
Qed.



(** ** Reconciliation *)

Lemma in_combine_seq {A} (l : list A) (s i : nat) (x : A) :
  In (i, x) (combine (seq s (length l)) l) <->
  (s <= i)%nat /\ nth_error l (i - s) = Some x.
Proof.
  revert s. induction l as [|a l IH]; intros s; cbn [length seq combine].
  - split; [intros []|]. intros [_ H]. now destruct (i - s)%nat.
  - cbn [In]. rewrite IH. split.
    + intros [[= <- <-]|[Hle Hn]].
      * rewrite Nat.sub_diag. auto.
      * split; [lia|]. replace (i - s)%nat with (S (i - S s)) by lia.
        exact Hn.
    + intros [Hle Hn]. destruct (Nat.eq_dec i s) as [->|Hne].
      * rewrite Nat.sub_diag in Hn. left. cbn in Hn. congruence.
      * right. split; [lia|].
        replace (i - s)%nat with (S (i - S s)) in Hn by lia. exact Hn.
Qed.

Lemma in_enumerate {A} (l : list A) (i : nat) (x : A) :
  In (i, x) (enumerate l) <-> nth_error l i = Some x.
Proof.
  unfold enumerate. rewrite in_combine_seq, Nat.sub_0_r.
  split; [tauto|]. split; [lia|assumption].
Qed.

Lemma existsb_nat_in (i : nat) (l : list nat) :
  existsb (Nat.eqb i) l = true <-> In i l.
Proof.
  rewrite existsb_exists. split.
  - intros (x & Hx & E). apply Nat.eqb_eq in E. now subst.
  - intros H. exists i. split; [assumption|apply Nat.eqb_refl].
Qed.

Section ReconciliationFacts.
Variable strptime : string -> option Z.

Lemma in_candidates (tx : Transaction) (group : list Transaction)
    (matched : list nat) (i : nat) (b : Transaction) :
  In (i, b) (candidates strptime tx group matched) <->
  nth_error group i = Some b /\ ~ In i matched /\
  is_match_with_tolerance strptime tx b = true.
Proof.
  unfold candidates. rewrite filter_In, in_enumerate, andb_true_iff.
  cbn [fst snd]. rewrite negb_true_iff, <- not_true_iff_false, existsb_nat_in.
  tauto.
Qed.

Lemma in_insert_by_date (c x : nat * Transaction) (l : list (nat * Transaction)) :
  In x (insert_by_date c l) <-> x = c \/ In x l.
Proof.
  induction l as [|y r IH]; cbn [insert_by_date].
  - cbn. intuition congruence.
  - destruct (date (snd y) <? date (snd c))%string; cbn [In].
    + rewrite IH. intuition congruence.
    + intuition congruence.
Qed.

Lemma in_sort_by_date (x : nat * Transaction) (l : list (nat * Transaction)) :
  In x (sort_by_date l) <-> In x l.
Proof.
  induction l as [|c l IH]; [reflexivity|].
  cbn [sort_by_date fold_right]. fold (sort_by_date l).
  rewrite in_insert_by_date, IH. cbn. intuition congruence.
Qed.

Lemma choose_some (tx : Transaction) (group : list Transaction)
    (matched : list nat) (idx : nat) :
  choose strptime tx group matched = Some idx ->
  exists b, nth_error group idx = Some b /\ ~ In idx matched /\
            is_match_with_tolerance strptime tx b = true.
Proof.
  unfold choose.
  destruct (sort_by_date _) as [|[i b] r] eqn:E; [discriminate|].
  intros [= <-]. exists b. apply in_candidates.
  apply in_sort_by_date. rewrite E. now left.
Qed.

Lemma choose_none (tx : Transaction) (group : list Transaction)
    (matched : list nat) :
  choose strptime tx group matched = None ->
  forall i b, nth_error group i = Some b -> ~ In i matched ->
              is_match_with_tolerance strptime tx b = false.
Proof.
  unfold choose.
  destruct (sort_by_date _) as [|[i0 b0] r] eqn:E; [|discriminate].
  intros _ i b Hn Hm.
  destruct (is_match_with_tolerance strptime tx b) eqn:Hb; [|reflexivity].
  exfalso. assert (H : In (i, b) (sort_by_date (candidates strptime tx group matched)))
    by (apply in_sort_by_date, in_candidates; auto).
  now rewrite E in H.
Qed.

Lemma is_found_found (l : list string) : is_found (l ++ [FOUND]) = true.
Proof. unfold is_found. now rewrite last_last. Qed.

Lemma is_found_missing (l : list string) : is_found (l ++ [MISSING]) = false.
Proof. unfold is_found. now rewrite last_last. Qed.

(** What a loop of [reconcile] keeps, from any round on. *)
Lemma pass_from (ys xs : list Transaction)
    (matched : list nat) (res : list (list string)) :
  NoDup matched -> (forall i, In i matched -> (i < length ys)%nat) ->
  exists rows,
    snd (fold_left (reconcile_step strptime ys) xs (matched, res))
    = res ++ rows /\
    Forall2 (fun tx row =>
               (row = to_list tx ++ [FOUND] /\
                exists b, In b ys /\
                          is_match_with_tolerance strptime tx b = true) \/
               row = to_list tx ++ [MISSING]) xs rows /\
    (length matched + found_count rows <= length ys)%nat.
Proof.
  revert matched res. induction xs as [|tx xs IH]; intros matched res Hnd Hlt.
  - exists []. cbn. rewrite app_nil_r. repeat split; [constructor|].
    assert (H : (length matched <= length (seq 0 (length ys)))%nat).
    { apply NoDup_incl_length; [assumption|].
      intros i Hi. apply in_seq. specialize (Hlt i Hi). lia. }
    rewrite length_seq in H. unfold found_count. cbn. lia.
  - cbn [fold_left]. unfold reconcile_step at 2. cbn [fst snd].
    destruct (choose strptime tx ys matched) as [idx|] eqn:Hch.
    + destruct (choose_some _ _ _ _ Hch) as (b & Hn & Hm & Hb).
      assert (Hadd : set_add idx matched = idx :: matched).
      { unfold set_add. destruct (existsb _ _) eqn:E; [|reflexivity].
        apply existsb_nat_in in E. contradiction. }
      rewrite Hadd.
      destruct (IH (idx :: matched) (res ++ [to_list tx ++ [FOUND]]))
        as (rows & Hres & Hrows & Hcount).
      * now constructor.
      * intros i [<-|Hi]; [|auto]. apply nth_error_Some. congruence.
      * exists ((to_list tx ++ [FOUND]) :: rows). split; [|split].
        -- rewrite Hres, <- app_assoc. reflexivity.
        -- constructor; [|assumption]. left. split; [reflexivity|].
           exists b. split; [|assumption]. eapply nth_error_In. eassumption.
        -- unfold found_count in *. cbn [filter].
           rewrite is_found_found. cbn [length] in *. lia.
    + destruct (IH matched (res ++ [to_list tx ++ [MISSING]]) Hnd Hlt)
        as (rows & Hres & Hrows & Hcount).
      exists ((to_list tx ++ [MISSING]) :: rows). split; [|split].
      * rewrite Hres, <- app_assoc. reflexivity.
      * constructor; [|assumption]. now right.
      * unfold found_count in *. cbn [filter].
        rewrite is_found_missing. exact Hcount.
Qed.
End ReconciliationFacts.

(** X14: each output of [reconcile] has one row per transaction of its
    group, in the same order: the four fields followed by [FOUND] or
    [MISSING]; and a row says [FOUND] only if the other group holds a
    transaction that matches, so a transaction without any partner is
    reported [MISSING]. *)
Theorem reconcile_rows
    (strptime : string -> option Z) (group_a group_b : list Transaction) :
  Forall2 (fun tx row =>
             (row = to_list tx ++ [FOUND] /\
              exists b, In b group_b /\
                        is_match_with_tolerance strptime tx b = true) \/
             row = to_list tx ++ [MISSING])
          group_a (fst (reconcile strptime group_a group_b)) /\
  Forall2 (fun tx row =>
             (row = to_list tx ++ [FOUND] /\
              exists a, In a group_a /\
                        is_match_with_tolerance strptime tx a = true) \/
             row = to_list tx ++ [MISSING])
          group_b (snd (reconcile strptime group_a group_b)).
Proof.
  unfold reconcile, reconcile_pass. cbn [fst snd]. split.
  - destruct (pass_from strptime group_b group_a [] [])
      as (rows & -> & H & _); [constructor|intros i []|exact H].
  - destruct (pass_from strptime group_a group_b [] [])
      as (rows & -> & H & _); [constructor|intros i []|exact H].
Qed.

(** X15: a transaction is matched at most once: the rows labelled [FOUND]
    in the output for one group are never more than the transactions of the
    other group. *)
Theorem found_rows_bounded
    (strptime : string -> option Z) (group_a group_b : list Transaction) :
  (found_count (fst (reconcile strptime group_a group_b))
   <= length group_b)%nat /\
  (found_count (snd (reconcile strptime group_a group_b))
   <= length group_a)%nat.
Proof.
  unfold reconcile, reconcile_pass. cbn [fst snd]. split.
  - destruct (pass_from strptime group_b group_a [] [])
      as (rows & -> & _ & H); [constructor|intros i []|exact H].
  - destruct (pass_from strptime group_a group_b [] [])
      as (rows & -> & _ & H); [constructor|intros i []|exact H].
Qed.

(** X16: nothing is matched yet when the first transaction of a group is
    looked at, so its row says [FOUND] exactly when the other group holds a
    transaction that matches it. *)
Theorem first_row_found_iff_partner
    (strptime : string -> option Z) (a : Transaction)
    (group_a group_b : list Transaction) :
  hd [] (fst (reconcile strptime (a :: group_a) group_b))
  = to_list a
    ++ [if existsb (is_match_with_tolerance strptime a) group_b
        then FOUND else MISSING].
Proof.
  unfold reconcile, reconcile_pass. cbn [fst snd fold_left].
  unfold reconcile_step at 2. cbn [fst snd].
  destruct (choose strptime a group_b []) as [idx|] eqn:Hch.
  - destruct (choose_some _ _ _ _ _ Hch) as (b & Hn & _ & Hb).
    assert (E : existsb (is_match_with_tolerance strptime a) group_b = true).
    { apply existsb_exists. exists b. split; [|assumption].
      eapply nth_error_In. eassumption. }
    rewrite E.
    destruct (pass_from strptime group_b group_a (set_add idx [])
                ([] ++ [to_list a ++ [FOUND]])) as (rows & -> & _).
    + cbn. constructor; [intros []|constructor].
    + cbn. intros i [<-|[]]. apply nth_error_Some. congruence.
    + reflexivity.
  - assert (E : existsb (is_match_with_tolerance strptime a) group_b = false).
    { destruct (existsb _ _) eqn:E; [|reflexivity].
      apply existsb_exists in E. destruct E as (b & Hin & Hb).
      apply In_nth_error in Hin. destruct Hin as [i Hi].
      rewrite (choose_none _ _ _ _ Hch i b Hi) in Hb; [discriminate|intros []]. }
    rewrite E.
    destruct (pass_from strptime group_b group_a []
                ([] ++ [to_list a ++ [MISSING]])) as (rows & -> & _);
      [constructor|intros i []|reflexivity].
Qed.

(** ** The partner that is chosen *)

Lemma string_lt_trans (s1 s2 s3 : string) :
  String.compare s1 s2 = Lt -> String.compare s2 s3 = Lt ->
  String.compare s1 s3 = Lt.
Proof.
  revert s2 s3. induction s1 as [|a s1 IH]; intros [|b s2] [|c s3];
    cbn [String.compare]; try discriminate; try reflexivity.
  unfold Ascii.compare.
  destruct (N.compare_spec (Ascii.N_of_ascii a) (Ascii.N_of_ascii b)) as [E|E|E];
    destruct (N.compare_spec (Ascii.N_of_ascii b) (Ascii.N_of_ascii c))
      as [E'|E'|E']; try discriminate; intros H1 H2.
  - rewrite E, E', N.compare_refl. eauto.
  - rewrite E. now apply N.compare_lt_iff in E' as ->.
  - rewrite <- E'. now apply N.compare_lt_iff in E as ->.
  - assert (E'' : (Ascii.N_of_ascii a < Ascii.N_of_ascii c)%N) by lia.
    now apply N.compare_lt_iff in E'' as ->.
Qed.

Lemma string_compare_refl (s : string) : String.compare s s = Eq.
Proof.
  induction s as [|a s IH]; [reflexivity|]. cbn [String.compare].
  unfold Ascii.compare. now rewrite N.compare_refl.
Qed.

Lemma string_not_ltb (s t : string) :
  (s <? t)%string = false -> (t <=? s)%string = true.
Proof.
  unfold String.ltb, String.leb. rewrite (String.compare_antisym t s).
  now destruct (String.compare s t).
Qed.

Lemma string_ltb_leb (s t : string) :
  (s <? t)%string = true -> (s <=? t)%string = true.
Proof.
  unfold String.ltb, String.leb. now destruct (String.compare s t).
Qed.

Lemma string_leb_trans (s t u : string) :
  (s <=? t)%string = true -> (t <=? u)%string = true ->
  (s <=? u)%string = true.
Proof.
  unfold String.leb.
  destruct (String.compare s t) eqn:E1; try discriminate;
    destruct (String.compare t u) eqn:E2; try discriminate; intros _ _.
  - apply String.compare_eq_iff in E1, E2. subst.
    now rewrite string_compare_refl.
  - apply String.compare_eq_iff in E1. subst. now rewrite E2.
  - apply String.compare_eq_iff in E2. subst. now rewrite E1.
  - now rewrite (string_lt_trans s t u).
Qed.

Lemma string_leb_ltb_trans (s t u : string) :
  (s <=? t)%string = true -> (t <? u)%string = true ->
  (s <? u)%string = true.
Proof.
  unfold String.leb, String.ltb.
  destruct (String.compare s t) eqn:E1; try discriminate;
    destruct (String.compare t u) eqn:E2; try discriminate; intros _ _.
  - apply String.compare_eq_iff in E1. subst. now rewrite E2.
  - now rewrite (string_lt_trans s t u).
Qed.

(** The head of the sorted list: everything before it in the original list
    has a greater date, everything after it a date at least as great. *)
Lemma sort_by_date_head (l : list (nat * Transaction))
    (c : nat * Transaction) (r : list (nat * Transaction)) :
  sort_by_date l = c :: r ->
  exists l1 l2,
    l = l1 ++ c :: l2 /\
    (forall x, In x l1 -> (date (snd c) <? date (snd x))%string = true) /\
    (forall x, In x l2 -> (date (snd c) <=? date (snd x))%string = true).
Proof.
  revert c r. induction l as [|x l IH]; intros c r; [discriminate|].
  cbn [sort_by_date fold_right]. fold (sort_by_date l).
  destruct (sort_by_date l) as [|y r'] eqn:E; cbn [insert_by_date].
  - intros [= <- <-]. destruct l as [|z l].
    + exists [], []. repeat split; intros ? [].
    + exfalso. assert (H : In z (sort_by_date (z :: l)))
        by (apply in_sort_by_date; now left). now rewrite E in H.
  - destruct (IH y r' eq_refl) as (l1 & l2 & -> & H1 & H2).
    destruct (date (snd y) <? date (snd x))%string eqn:Hyx.
    + intros [= <- <-]. exists (x :: l1), l2. repeat split; auto.
      intros z [<-|Hz]; auto.
    + intros [= <- <-]. exists [], (l1 ++ y :: l2). repeat split.
      * intros ? [].
      * apply string_not_ltb in Hyx. intros z Hz.
        apply in_app_or in Hz. destruct Hz as [Hz|[<-|Hz]]; auto.
        -- eapply string_leb_trans; [exact Hyx|].
           apply string_ltb_leb. auto.
        -- eapply string_leb_trans; [exact Hyx|]. auto.
Qed.

Lemma filter_split {A} (f : A -> bool) (L l1 l2 : list A) (x : A) :
  filter f L = l1 ++ x :: l2 ->
  exists L1 L2, L = L1 ++ x :: L2 /\ l1 = filter f L1 /\ l2 = filter f L2.
Proof.
  revert l1. induction L as [|a L IH]; intros l1; cbn [filter].
  - now destruct l1.
  - destruct (f a) eqn:Ha.
    + destruct l1 as [|y l1]; cbn [app].
      * intros [= -> <-]. exists [], L. auto.
      * intros [= -> H]. destruct (IH l1 H) as (L1 & L2 & -> & -> & ->).
        exists (y :: L1), L2. cbn [filter]. rewrite Ha. auto.
    + intros H. destruct (IH l1 H) as (L1 & L2 & -> & -> & ->).
      exists (a :: L1), L2. cbn [filter]. rewrite Ha. auto.
Qed.

Lemma combine_seq_split {A} (l : list A) (s : nat)
    (L1 L2 : list (nat * A)) (x : nat * A) :
  combine (seq s (length l)) l = L1 ++ x :: L2 ->
  (forall y, In y L1 -> (fst y < fst x)%nat) /\
  (forall y, In y L2 -> (fst x < fst y)%nat).
Proof.
  revert s L1. induction l as [|a l IH]; intros s L1; cbn [length seq combine].
  - now destruct L1.
  - destruct L1 as [|z L1]; cbn [app].
    + intros [= <- <-]. split; [intros ? []|].
      intros [j y] Hy. apply in_combine_seq in Hy. cbn. lia.
    + intros [= <- H]. destruct (IH _ _ H) as [H1 H2]. split; [|assumption].
      intros y [<-|Hy]; [|auto]. cbn [fst].
      assert (Hx : In x (combine (seq (S s) (length l)) l))
        by (rewrite H; apply in_or_app; right; now left).
      destruct x as [j b]. apply in_combine_seq in Hx. cbn. lia.
Qed.

(** X17: the partner chosen for a transaction is a transaction of the other
    group that is not matched yet and matches it, and among all of those it
    has the least date string (dates are compared as strings); with equal
    date strings the one of lowest index wins. *)
Theorem chosen_partner_has_least_date
    (strptime : string -> option Z) (tx : Transaction)
    (group : list Transaction) (matched : list nat) (idx : nat) :
  choose strptime tx group matched = Some idx ->
  exists b,
    nth_error group idx = Some b /\ ~ In idx matched /\
    is_match_with_tolerance strptime tx b = true /\
    forall j b',
      nth_error group j = Some b' -> ~ In j matched ->
      is_match_with_tolerance strptime tx b' = true ->
      (date b <=? date b')%string = true /\
      ((j < idx)%nat -> (date b <? date b')%string = true).
Proof.
  unfold choose.
  destruct (sort_by_date _) as [|[i b] r] eqn:E; [discriminate|].
  intros [= <-]. exists b.
  assert (Hin : In (i, b) (candidates strptime tx group matched))
    by (apply in_sort_by_date; rewrite E; now left).
  apply in_candidates in Hin. destruct Hin as (Hn & Hm & Hb).
  split; [exact Hn|]. split; [exact Hm|]. split; [exact Hb|].
  intros j b' Hj Hjm Hjb.
  destruct (sort_by_date_head _ _ _ E) as (l1 & l2 & Hl & H1 & H2).
  unfold candidates in Hl.
  destruct (filter_split _ _ _ _ _ Hl) as (L1 & L2 & HL & -> & ->).
  destruct (combine_seq_split _ _ _ _ _ HL) as [HL1 HL2].
  assert (Hc : In (j, b') (candidates strptime tx group matched))
    by (apply in_candidates; auto).
  unfold candidates in Hc. rewrite Hl in Hc. apply in_app_or in Hc.
  split.
  - destruct Hc as [Hc|[Hc|Hc]].
    + apply string_ltb_leb. exact (H1 _ Hc).
    + injection Hc as <- <-. unfold String.leb.
      now rewrite string_compare_refl.
    + exact (H2 _ Hc).
  - intros Hlt. destruct Hc as [Hc|[Hc|Hc]].
    + exact (H1 _ Hc).
    + injection Hc as <- <-. lia.
    + apply filter_In in Hc. destruct Hc as [Hc _].
      specialize (HL2 _ Hc). cbn in HL2. lia.
Qed.

Lemma chosen_partner_has_least_date_witness :
  let parse := fun s : string =>
                 if (s =? "2024-01-01")%string then Some 10
                 else if (s =? "2024-01-02")%string then Some 11
                 else if (s =? "2024-01-03")%string then Some 12
                 else None in
  let tx d := {| date := d; department := "IT"; value := "5";
                 beneficiary := "ACME" |} in
  exists b,
    nth_error [tx "2024-01-03"; tx "2024-01-01"; tx "2024-01-01"]%string 2
    = Some b /\ ~ In 2%nat [1%nat] /\
    is_match_with_tolerance parse (tx "2024-01-02"%string) b = true /\
    forall j b',
      nth_error [tx "2024-01-03"; tx "2024-01-01"; tx "2024-01-01"]%string j
      = Some b' -> ~ In j [1%nat] ->
      is_match_with_tolerance parse (tx "2024-01-02"%string) b' = true ->
      (date b <=? date b')%string = true /\
      ((j < 2)%nat -> (date b <? date b')%string = true).
Proof.
  cbv zeta.
  apply (chosen_partner_has_least_date
           (fun s : string =>
              if (s =? "2024-01-01")%string then Some 10
              else if (s =? "2024-01-02")%string then Some 11
              else if (s =? "2024-01-03")%string then Some 12
              else None)).
  reflexivity.
Defined.

(** ** Computed properties *)

Section ComputedFacts.
Variable value : Type.
Variable py_eq : value -> value -> bool.
Variable str_eq : string -> value -> bool.

Abbreviation get := (__get__ value py_eq).
Abbreviation set_attr := (custom_setattr value str_eq).
Abbreviation valid := (entry_valid value py_eq).
Abbreviation teq := (tuple_eq value py_eq).
Abbreviation seq_slot := (slot_eq value py_eq).

Lemma slot_eq_refl (x : option value) :
  (forall v, py_eq v v = true) -> seq_slot x x = true.
Proof. intros H. destruct x; cbn; auto. Qed.

Lemma tuple_eq_refl (xs : list (option value)) :
  (forall v, py_eq v v = true) -> teq xs xs = true.
Proof.
  intros H. induction xs as [|x xs IH]; cbn; [reflexivity|].
  now rewrite slot_eq_refl, IH.
Qed.

(** The cache after a read: unchanged, or with the entry of the property
    replaced by the value just computed and the current dependencies. *)
Lemma get_cache_cases (q : ComputedProperty value) (inst : instance value) :
  let old := match computed_cache inst with
             | Some c0 => c0
             | None => fun _ => None
             end in
  exists c,
    computed_cache (snd (get q inst)) = Some c /\
    attrs (snd (get q inst)) = attrs inst /\
    ((exists cached last,
        old (prop_name q) = Some (cached, last) /\
        teq (current_deps value q inst) last = true /\
        fst (get q inst) = (cached, false) /\
        forall key, c key = old key) \/
     ((old (prop_name q) = None \/
       exists cached last, old (prop_name q) = Some (cached, last) /\
                           teq (current_deps value q inst) last = false) /\
      fst (get q inst) = (func q (attrs inst), true) /\
      forall key, c key = if (key =? prop_name q)%string
                          then Some (func q (attrs inst),
                                     current_deps value q inst)
                          else old key)).
Proof.
  cbv zeta. unfold __get__.
  destruct (match computed_cache inst with Some c => c | None => _ end
              (prop_name q)) as [[cached last]|] eqn:E;
    [destruct (teq (current_deps value q inst) last) eqn:Et|];
    cbn [fst snd computed_cache attrs]; eexists;
    (split; [reflexivity|]); (split; [reflexivity|]).
  - left. exists cached, last. auto.
  - right. split; [right; exists cached, last; auto|]. auto.
  - right. split; [now left|]. auto.
Qed.

Lemma get_keeps_entry_valid
    (p q : ComputedProperty value) (inst : instance value) :
  (forall a a', teq (map a (dependencies p)) (map a' (dependencies p)) = true ->
                func p a = func p a') ->
  (prop_name q = prop_name p -> q = p) ->
  valid p inst -> valid p (snd (get q inst)).
Proof.
  intros Hdep Hq Hv c cached deps Hc Hentry a Ha.
  destruct (get_cache_cases q inst) as (c' & Hc' & _ & Hcases).
  rewrite Hc' in Hc. injection Hc as <-.
  assert (Hold : forall cached' deps',
             match computed_cache inst with
             | Some c0 => c0
             | None => fun _ => None
             end (prop_name p) = Some (cached', deps') ->
             teq (map a (dependencies p)) deps' = true -> func p a = cached').
  { intros cached' deps' H H'.
    destruct (computed_cache inst) as [c0|] eqn:E; [|discriminate].
    exact (Hv c0 cached' deps' E H a H'). }
  destruct Hcases as [(cv & last & _ & _ & _ & H)|(_ & _ & H)];
    rewrite H in Hentry; [eauto|].
  destruct (String.eqb_spec (prop_name p) (prop_name q)) as [E|E]; [|eauto].
  rewrite (Hq (eq_sym E)) in *. injection Hentry as <- <-.
  apply Hdep. exact Ha.
Qed.

Lemma set_keeps_entry_valid (p : ComputedProperty value)
    (inst : instance value) (name : string) (v : value) :
  valid p inst -> valid p (set_attr inst name v).
Proof.
  intros Hv c cached deps Hc Hentry a Ha.
  unfold custom_setattr in Hc. cbn [computed_cache] in Hc.
  destruct (computed_cache inst) as [c0|] eqn:E; [|discriminate].
  injection Hc as <-.
  destruct (c0 (prop_name p)) as [[cv ds]|] eqn:E0; [|discriminate].
  destruct (name_in value str_eq name ds); [discriminate|].
  injection Hentry as <- <-.
  exact (Hv c0 cv ds E E0 a Ha).
Qed.

Lemma run_keeps_entry_valid (p : ComputedProperty value)
    (ops : list (operation value)) (inst : instance value) :
  (forall a a', teq (map a (dependencies p)) (map a' (dependencies p)) = true ->
                func p a = func p a') ->
  (forall q, In (Get q) ops -> prop_name q = prop_name p -> q = p) ->
  valid p inst -> valid p (run_operations value py_eq str_eq ops inst).
Proof.
  intros Hdep. revert inst.
  induction ops as [|[q|name v] ops IH]; intros inst Hnames H0; cbn; auto.
  - apply IH; [intros q' Hin; apply Hnames; right; exact Hin|].
    apply get_keeps_entry_valid; auto. apply Hnames. now left.
  - apply IH; [intros q' Hin; apply Hnames; right; exact Hin|].
    now apply set_keeps_entry_valid.
Qed.

(** The dependencies after one assignment, compared with those before. *)
Lemma tuple_eq_after_set (a : string -> option value) (name : string)
    (v : value) (l : list string) :
  (forall x, py_eq x x = true) ->
  teq (map (fun key => if (key =? name)%string then Some v else a key) l)
      (map a l)
  = if existsb (String.eqb name) l then seq_slot (Some v) (a name) else true.
Proof.
  intros Hrefl. induction l as [|d l IH]; [reflexivity|].
  cbn [map tuple_eq existsb]. rewrite IH, (String.eqb_sym name d).
  destruct (String.eqb_spec d name) as [->|_]; cbn [orb].
  - destruct (existsb (String.eqb name) l);
      [now destruct (seq_slot (Some v) (a name))|apply andb_true_r].
  - now rewrite slot_eq_refl.
Qed.
End ComputedFacts.

(** Values that compare equal count as the same number. *)
Lemma slot_eq_as_number (x y : option pyval) :
  slot_eq pyval pyval_eq x y = true -> as_number x = as_number y.
Proof.
  destruct x as [[|a|n|s]|], y as [[|b|m|t]|]; cbn;
    try discriminate; try reflexivity.
  - destruct a, b; cbn; (discriminate || reflexivity).
  - intros H. apply Z.eqb_eq in H. now subst.
  - intros H. apply Z.eqb_eq in H. now subst.
  - intros H. apply Z.eqb_eq in H. now subst.
Qed.

(** On the example values, reading [x] after [x = 1] and again after
    [x = True] gives the cached [1]: the two tuples compare equal. *)
Example equal_values_share_the_entry :
  let same := {| func := fun a => match a "x"%string with
                                  | Some v => v
                                  | None => VNone
                                  end;
                 dependencies := ["x"%string]; prop_name := "same" |} in
  let run := run_operations pyval pyval_eq pyval_str_eq in
  let inst := run [SetAttr "x" (VInt 1); Get same; SetAttr "x" (VBool true)]
                  {| attrs := fun _ => None; computed_cache := None |} in
  fst (__get__ pyval pyval_eq same inst) = (VInt 1, false) /\
  func same (attrs inst) = VBool true.
Proof. split; reflexivity. Qed.





(** X20: [__init__] catches nothing and fails exactly when a path was
    given and [read_lines] fails, with the exception of [read_lines].  An
    object that it has built holds its path, the iterator at the start and
    the lines that [read_lines] gives for the path, or no line at all when
    no path (or an empty one) was given; [k] calls of [__next__] on it
    return its first [k] lines in order and [None] from then on, printing
    the notice each of those times. *)
Theorem constructed_object_iterates_file
    (filepath : option string) (st : path_status) (k : nat) :
  (forall e, __init__ filepath st = inr e
             <-> truthy filepath = true /\ read_lines st = inr e) /\
  (forall self,
     __init__ filepath st = inl self ->
     obj_filepath self = filepath /\
     lines_iterator self = 0 /\
     (truthy filepath = true -> read_lines st = inl (obj_lines self)) /\
     (truthy filepath = false -> obj_lines self = []) /\
     fst (fst (calls k self))
     = map Line (firstn k (obj_lines self))
         ++ repeat NoneValue (k - length (obj_lines self)) /\
     snd (fst (calls k self))
     = repeat msg_no_more (k - length (obj_lines self))).
Proof.
  unfold __init__. split.
  - intros e. destruct (truthy filepath).
    + destruct (read_lines st) as [ls|e'].
      * split; [discriminate|]. intros [_ H]. discriminate H.
      * split; [intros [= <-]; auto|]. now intros [_ [= <-]].
    + split; [discriminate|]. intros [H _]. discriminate H.
  - intros self H.
    assert (Hself : obj_filepath self = filepath /\ lines_iterator self = 0 /\
                    (truthy filepath = true ->
                     read_lines st = inl (obj_lines self)) /\
                    (truthy filepath = false -> obj_lines self = [])).
    { destruct (truthy filepath).
      - destruct (read_lines st) as [ls|e']; [|discriminate].
        injection H as <-. cbn. repeat split; auto. discriminate.
      - injection H as <-. cbn. repeat split; auto. discriminate. }
    destruct Hself as (Hp & Hi & Ht & Hf).
    repeat split; auto;
      rewrite (calls_from k 0 self) by (cbn; lia || (rewrite Hi; reflexivity));
      cbn [fst snd skipn]; now rewrite Nat.sub_0_r.
Qed.
